(** * Tilt maze: the physics and collision engine of the play page

    A shallow embedding of the play-page script (the variant with the
    session timer and the circle-versus-grid resolver, plus the sub-step
    count of the older axis-swept variant in [js/levels/render_game.js]).

    JavaScript numbers are idealised as real numbers: [Math.sqrt],
    [Math.exp], [Math.hypot], [Math.abs], [Math.min] and [Math.max] are
    the functions of the real line, [Math.floor] and [Math.ceil] return
    integers.  Grid indices, loop counters and tile coordinates are
    integers ([Z]).  Module-level mutable variables of the script become
    fields of one [World] record that every function takes and returns. *)

From Stdlib Require Import Ascii String DecimalString.
From Stdlib Require Import Reals Lra Lia ZArith List Bool.
Import ListNotations.

Open Scope Z_scope.
Open Scope R_scope.

(** ** Numbers *)

Module Num.

(** [Math.floor]: the integer part. *)
Definition floor (x : R) : Z := Int_part x.

(** [Math.ceil]. *)
Definition ceil (x : R) : Z := (- floor (- x))%Z.

(** [Math.hypot(x, y)]. *)
Definition hypot (x y : R) : R := sqrt (x * x + y * y).

(** [clamp(val, min, max)] of the script:
    [Math.min(max, Math.max(min, val))]. *)
Definition clamp (val lo hi : R) : R := Rmin hi (Rmax lo val).

(** The integers [lo, lo+1, ..., hi] of a [for (i = lo; i <= hi; i++)]
    loop; empty when [hi < lo]. *)
Definition zrange (lo hi : Z) : list Z :=
  map (fun i => (lo + Z.of_nat i)%Z) (seq 0 (Z.to_nat (hi - lo + 1))).

End Num.
Import Num.

(** ** Grid model *)

(** A tile symbol is one character; a row is a sequence of symbols. *)
Definition Row := list ascii.
Definition Grid := list Row.

(** A level object of [levels.json]; only the [grid] member is read by
    the engine, and it may be absent. *)
Record Level := mkLevel { grid : option Grid }.

(** Writing grids row by row, one string per row. *)
Definition rows_of (l : list string) : Grid := map list_ascii_of_string l.

Definition WALL : ascii := "#"%char.

Section GridModel.

(** The module variable [currentLevel] ([null] when nothing is loaded). *)
Variable currentLevel : option Level.

(** [isWall(col, row)].  The second test reads [grid[0].length] only
    when [row < grid.length], as [||] short-circuits; an index past the
    end of a row reads [undefined], which is not ['#']. *)
Definition isWall (col row : Z) : bool :=
  match currentLevel with
  | None => false
  | Some lv =>
    match grid lv with
    | None => false
    | Some g =>
      if ((row <? 0) || (col <? 0))%Z then true
      else if ((row >=? Z.of_nat (length g))
               || (col >=? Z.of_nat (length (nth 0 g []))))%Z then true
      else match nth_error (nth (Z.to_nat row) g []) (Z.to_nat col) with
           | Some ch => Ascii.eqb ch WALL
           | None => false
           end
    end
  end.

End GridModel.

(** All rows have [cols] symbols. *)
Definition rectangular (g : Grid) (cols : nat) : Prop :=
  Forall (fun r => length r = cols) g.

(** The symbol stored at [(row, col)], if the cell exists. *)
Definition tileAt (g : Grid) (col row : Z) : option ascii :=
  if ((row <? 0) || (col <? 0))%Z then None
  else match nth_error g (Z.to_nat row) with
       | Some r => nth_error r (Z.to_nat col)
       | None => None
       end.

(** ** Start and goal cells *)

(** A cell [{ r, c }]. *)
Record Cell := mkCell { cell_r : Z; cell_c : Z }.

(** The result [{ start, goal }] of [findSpecialCells]; [None] is [null]. *)
Record Specials := mkSpecials { start : option Cell; goal : option Cell }.

(** [row.indexOf(ch)]: the first index holding [ch], or [-1]. *)
Fixpoint indexOf (ch : ascii) (row : Row) : Z :=
  match row with
  | [] => (-1)%Z
  | s :: tl =>
    if Ascii.eqb s ch then 0%Z
    else let i := indexOf ch tl in
         if (i =? -1)%Z then (-1)%Z else (i + 1)%Z
  end.

(** One turn of the loop of [findSpecialCells], at row index [r]. *)
Definition findSpecialCells_body (acc : Specials) (r : Z) (row : Row) : Specials :=
  let s := indexOf "S" row in
  let start' := if negb (s =? -1)%Z then Some (mkCell r s) else start acc in
  let g := indexOf "G" row in
  let goal' := if negb (g =? -1)%Z then Some (mkCell r g) else goal acc in
  mkSpecials start' goal'.

(** The loop [for (r = r0; r < grid.length; r++)] over the remaining rows. *)
Fixpoint findSpecialCells_loop (r : Z) (rest : Grid) (acc : Specials) : Specials :=
  match rest with
  | [] => acc
  | row :: rest' =>
    findSpecialCells_loop (r + 1) rest' (findSpecialCells_body acc r row)
  end.

(** [findSpecialCells(grid)]. *)
Definition findSpecialCells (g : Grid) : Specials :=
  findSpecialCells_loop 0 g (mkSpecials None None).

(** The reading of the specification, for comparison: the first
    occurrence of a symbol when the grid is scanned top-to-bottom, and
    left-to-right within each row. *)
Module SpecReading.

Fixpoint scanRow (ch : ascii) (r c : Z) (row : Row) : option Cell :=
  match row with
  | [] => None
  | s :: tl =>
    if Ascii.eqb s ch then Some (mkCell r c) else scanRow ch r (c + 1) tl
  end.

Fixpoint scanGrid (ch : ascii) (r : Z) (g : Grid) : option Cell :=
  match g with
  | [] => None
  | row :: rest =>
    match scanRow ch r 0 row with
    | Some cell => Some cell
    | None => scanGrid ch (r + 1) rest
    end
  end.

Definition firstOccurrence (ch : ascii) (g : Grid) : option Cell :=
  scanGrid ch 0 g.

End SpecReading.

(** The cell [cell] of the grid holds the symbol [ch]. *)
Definition holds (g : Grid) (ch : ascii) (cell : Cell) : Prop :=
  tileAt g (cell_c cell) (cell_r cell) = Some ch.

(** [cell] holds [ch], and every cell holding [ch] is in an earlier row,
    or in the same row at the same or a later column. *)
Definition lastRowFirstCol (g : Grid) (ch : ascii) (cell : Cell) : Prop :=
  holds g ch cell /\
  forall cell', holds g ch cell' ->
    (cell_r cell' < cell_r cell)%Z
    \/ (cell_r cell' = cell_r cell /\ cell_c cell <= cell_c cell')%Z.

(** [cell] holds [ch], and every cell holding [ch] is in a later row, or
    in the same row at the same or a later column. *)
Definition firstInScanOrder (g : Grid) (ch : ascii) (cell : Cell) : Prop :=
  holds g ch cell /\
  forall cell', holds g ch cell' ->
    (cell_r cell < cell_r cell')%Z
    \/ (cell_r cell' = cell_r cell /\ cell_c cell <= cell_c cell')%Z.

(** The rows in which [ch] occurs. *)
Definition rowsHolding (ch : ascii) (g : Grid) : list Row :=
  filter (fun row => existsb (fun s => Ascii.eqb s ch) row) g.

(** Sample grids. *)
Definition sampleGrid : Grid := rows_of [".#"; "S."]%string.

Definition twoStarts : Grid := rows_of ["S."; ".S"]%string.

(** ** Ball, layout, sensor *)

Record Vec := mkVec { vx : R; vy : R }.

(** The module constant [ball = { pos, vel, radius }]. *)
Record Ball := mkBall { pos : Vec; vel : Vec; radius : R }.

(** [renderInfo = { cols, rows, cellSize }], as returned by the renderer. *)
Record RenderInfo := mkRenderInfo { cols : Z; rows : Z; cellSize : R }.

Record SensorState := mkSensor { accel : Vec; enabled : bool; available : bool }.

(** [syncBallRadius(cellSize)]: assigns [ball.radius]. *)
Definition syncBallRadius (cs : R) (b : Ball) : Ball :=
  mkBall (pos b) (vel b) (Rmax 3 (Rmin (cs * 0.35) (cs * 0.45))).

(** [computeAcceleration()]. *)
Definition computeAcceleration (s : SensorState) : R * R :=
  if enabled s && available s then (vx (accel s), vy (accel s)) else (0, 0).

(** ** Session timer *)

Record TimerState := mkTimer
  { startTime : R; elapsedMs : R; running : bool; started : bool }.

(** The initial value of the module constant [timerState]. *)
Definition timerState0 : TimerState := mkTimer 0 0 false false.

(** The timer functions read the clock with [performance.now()]; the
    reading is the argument [now]. *)
Definition resetTimer (t : TimerState) : TimerState := mkTimer 0 0 false false.

Definition startTimer (now : R) (t : TimerState) : TimerState :=
  if running t then t
  else mkTimer now (elapsedMs t) true true.

Definition stopTimer (now : R) (t : TimerState) : TimerState :=
  if negb (running t) then t
  else mkTimer (startTime t) (elapsedMs t + (now - startTime t)) false (started t).

Definition getElapsedMs (now : R) (t : TimerState) : R :=
  if negb (running t) then elapsedMs t
  else elapsedMs t + (now - startTime t).

(** ** Collision resolver *)

(** The local variables [cx], [cy], [collided] of
    [resolveCircleCollisions], together with [ball.vel], which the
    function mutates. *)
Record Resolve := mkResolve { cx : R; cy : R; bvel : Vec; collided : bool }.

(** The contact normal [(nx, ny)] of one colliding tile: the unit vector
    from the closest point to the centre, or, when the centre is on or
    inside the box ([dist] is not positive), the outward direction of the
    edge of least penetration, tested in the order left, right, top,
    bottom. *)
Definition contactNormal (cx cy x0 y0 x1 y1 dx dy dist : R) : R * R :=
  if Rlt_dec 0 dist then (dx / dist, dy / dist)
  else
    let leftPen := Rabs (cx - x0) in
    let rightPen := Rabs (x1 - cx) in
    let topPen := Rabs (cy - y0) in
    let bottomPen := Rabs (y1 - cy) in
    let minPen := Rmin (Rmin (Rmin leftPen rightPen) topPen) bottomPen in
    if Req_dec_T minPen leftPen then (-1, 0)
    else if Req_dec_T minPen rightPen then (1, 0)
    else if Req_dec_T minPen topPen then (0, -1)
    else (0, 1).

(** The squared distance from the centre to the closest point of the
    tile [(col, row)], with the offsets [dx], [dy]. *)
Definition tileOffset (cellSize cx cy : R) (col row : Z) : R * R :=
  let x0 := IZR col * cellSize in
  let y0 := IZR row * cellSize in
  let x1 := x0 + cellSize in
  let y1 := y0 + cellSize in
  (cx - clamp cx x0 x1, cy - clamp cy y0 y1).

(** The collision test of the inner loop: the tile is a wall and
    [distSq < radSq - 1e-6]. *)
Definition collides (lvl : option Level) (radius cellSize cx cy : R)
           (col row : Z) : Prop :=
  isWall lvl col row = true /\
  let '(dx, dy) := tileOffset cellSize cx cy col row in
  dx * dx + dy * dy < radius * radius - 1e-6.

(** The normal the resolver uses for the tile [(col, row)]. *)
Definition tileNormal (cellSize cx cy : R) (col row : Z) : R * R :=
  let x0 := IZR col * cellSize in
  let y0 := IZR row * cellSize in
  let x1 := x0 + cellSize in
  let y1 := y0 + cellSize in
  let '(dx, dy) := tileOffset cellSize cx cy col row in
  contactNormal cx cy x0 y0 x1 y1 dx dy (sqrt (Rmax (dx * dx + dy * dy) 0)).

(** The body of the inner loop, for the tile [(col, row)]. *)
Definition resolveCell (lvl : option Level) (radius cellSize : R)
           (st : Resolve) (col row : Z) : Resolve :=
  if negb (isWall lvl col row) then st
  else
    let x0 := IZR col * cellSize in
    let y0 := IZR row * cellSize in
    let x1 := x0 + cellSize in
    let y1 := y0 + cellSize in
    let closestX := clamp (cx st) x0 x1 in
    let closestY := clamp (cy st) y0 y1 in
    let dx := cx st - closestX in
    let dy := cy st - closestY in
    let distSq := dx * dx + dy * dy in
    let radSq := radius * radius in
    if Rlt_dec distSq (radSq - 1e-6) then
      let dist := sqrt (Rmax distSq 0) in
      let '(nx, ny) := contactNormal (cx st) (cy st) x0 y0 x1 y1 dx dy dist in
      let penetration := radius - dist + 0.01 in
      let vDotN := vx (bvel st) * nx + vy (bvel st) * ny in
      mkResolve (cx st + nx * penetration) (cy st + ny * penetration)
                (if Rlt_dec vDotN 0
                 then mkVec (vx (bvel st) - vDotN * nx) (vy (bvel st) - vDotN * ny)
                 else bvel st)
                true
    else st.

(** The band of tiles examined by one pass, fixed when the pass starts. *)
Definition bandRows (ri : RenderInfo) (radius cellSize cy : R) : list Z :=
  zrange (Z.max 0 (floor ((cy - radius) / cellSize)))
         (Z.min (rows ri - 1) (floor ((cy + radius) / cellSize))).

Definition bandCols (ri : RenderInfo) (radius cellSize cx : R) : list Z :=
  zrange (Z.max 0 (floor ((cx - radius) / cellSize)))
         (Z.min (cols ri - 1) (floor ((cx + radius) / cellSize))).

(** One pass: [collided] is cleared, then every tile of the band is
    visited row by row, each with the position left by the previous one. *)
Definition resolvePass (lvl : option Level) (ri : RenderInfo)
           (radius cellSize : R) (st : Resolve) : Resolve :=
  let rws := bandRows ri radius cellSize (cy st) in
  let cls := bandCols ri radius cellSize (cx st) in
  fold_left
    (fun s row => fold_left (fun s' col => resolveCell lvl radius cellSize s' col row) cls s)
    rws
    (mkResolve (cx st) (cy st) (bvel st) false).

(** The loop [for (iter = 0; iter < maxIter; iter++)], left early by the
    first pass without a collision. *)
Fixpoint resolveLoop (lvl : option Level) (ri : RenderInfo)
         (radius cellSize : R) (iters : nat) (st : Resolve) : Resolve :=
  match iters with
  | O => st
  | S k =>
    let st' := resolvePass lvl ri radius cellSize st in
    if collided st' then resolveLoop lvl ri radius cellSize k st' else st'
  end.

Definition maxIter : nat := 4.

(** [resolveCircleCollisions(nextX, nextY, radius, cellSize)], reading
    [currentLevel], [renderInfo] and [ball.vel]; returns the resolved
    position and the velocity it leaves in [ball.vel]. *)
Definition resolveCircleCollisions (lvl : option Level) (ri : RenderInfo)
           (v : Vec) (nextX nextY radius cellSize : R) : Vec * Vec :=
  let maxX := IZR (cols ri) * cellSize - radius in
  let maxY := IZR (rows ri) * cellSize - radius in
  let st := resolveLoop lvl ri radius cellSize maxIter
                        (mkResolve nextX nextY v false) in
  (mkVec (clamp (cx st) radius maxX) (clamp (cy st) radius maxY), bvel st).

(** A playfield one tile wide and two tiles high, floor above wall,
    drawn with [cellSize = 8], for which [syncBallRadius] gives [3]. *)
Definition wallBelow : option Level := Some (mkLevel (Some (rows_of ["."; "#"]%string))).

Definition wallBelowInfo : RenderInfo := mkRenderInfo 1 2 8.

(** ** Session state *)

(** What a physics step does to the page besides its own variables, in
    the order it happens. *)
Inductive Effect :=
| CancelAnimationFrame (id : Z)
| SaveCompletionTime (level : Z) (ms : R)
| ShowWinModal (ms : R).

(** The module variables of the script. *)
Record World := mkWorld
  { currentLevel : option Level;
    renderInfo : option RenderInfo;
    startCell : option Cell;
    goalCell : option Cell;
    goalReached : bool;
    animationId : option Z;
    animationPaused : bool;
    ball : Ball;
    sensorState : SensorState;
    timerState : TimerState;
    requestedLevel : Z;
    effects : list Effect }.

(** [pauseGame()]. *)
Definition pauseGame (now : R) (w : World) : World :=
  mkWorld (currentLevel w) (renderInfo w) (startCell w) (goalCell w)
          (goalReached w)
          None
          true
          (mkBall (pos (ball w)) (mkVec 0 0) (radius (ball w)))
          (sensorState w)
          (stopTimer now (timerState w))
          (requestedLevel w)
          (effects w ++ match animationId w with
                        | Some id => [CancelAnimationFrame id]
                        | None => []
                        end).

(** [showWinModal()]: stops the timer, hands the elapsed time to the
    score store and displays it. *)
Definition showWinModal (now : R) (w : World) : World :=
  let t := stopTimer now (timerState w) in
  let ms := getElapsedMs now t in
  mkWorld (currentLevel w) (renderInfo w) (startCell w) (goalCell w)
          (goalReached w) (animationId w) (animationPaused w) (ball w)
          (sensorState w) t (requestedLevel w)
          (effects w ++ [SaveCompletionTime (requestedLevel w) ms;
                         ShowWinModal (getElapsedMs now t)]).

(** ** Integrator *)

(** The constant [steps] of [stepPhysics]. *)
Definition steps (speed dt cellSize : R) : Z :=
  let maxTravelPerSubStep := cellSize * 0.45 in
  Z.max 1 (ceil (speed * dt / Rmax 1 maxTravelPerSubStep)).

(** One turn of the sub-step loop: the tentative position is handed to
    the resolver, which returns the position and leaves the velocity. *)
Definition subStep (lvl : option Level) (ri : RenderInfo)
           (rad cellSize stepDt : R) (b : Ball) : Ball :=
  let nextX := vx (pos b) + vx (vel b) * stepDt in
  let nextY := vy (pos b) + vy (vel b) * stepDt in
  let '(resolved, v) :=
    resolveCircleCollisions lvl ri (vel b) nextX nextY rad cellSize in
  mkBall resolved v (radius b).

(** The velocity update of [stepPhysics]: acceleration, then damping. *)
Definition friction : R := 1.8.

Definition dampedVelocity (s : SensorState) (dt : R) (v : Vec) : Vec :=
  let '(ax, ay) := computeAcceleration s in
  mkVec ((vx v + ax * dt) * exp (- friction * dt))
        ((vy v + ay * dt) * exp (- friction * dt)).

(** The ball after the velocity update and the sub-step loop. *)
Definition integrate (lvl : option Level) (ri : RenderInfo)
           (s : SensorState) (dt : R) (b : Ball) : Ball :=
  let v := dampedVelocity s dt (vel b) in
  let cs := cellSize ri in
  let rad := radius b in
  let speed := hypot (vx v) (vy v) in
  let n := steps speed dt cs in
  let stepDt := dt / IZR n in
  Nat.iter (Z.to_nat n) (subStep lvl ri rad cs stepDt) (mkBall (pos b) v rad).

(** The goal test at the end of [stepPhysics]. *)
Definition inGoalCell (cs : R) (p : Vec) (g : Cell) : bool :=
  let cellR := floor (vy p / cs) in
  let cellC := floor (vx p / cs) in
  ((cellR =? cell_r g) && (cellC =? cell_c g))%Z.

Definition set_ball (w : World) (b : Ball) : World :=
  mkWorld (currentLevel w) (renderInfo w) (startCell w) (goalCell w)
          (goalReached w) (animationId w) (animationPaused w) b
          (sensorState w) (timerState w) (requestedLevel w) (effects w).

Definition set_goalReached (w : World) (g : bool) : World :=
  mkWorld (currentLevel w) (renderInfo w) (startCell w) (goalCell w)
          g (animationId w) (animationPaused w) (ball w)
          (sensorState w) (timerState w) (requestedLevel w) (effects w).

(** [stepPhysics(dt)], called when the clock reads [now]. *)
Definition stepPhysics (now dt : R) (w : World) : World :=
  match renderInfo w with
  | None => w
  | Some ri =>
    let w1 := set_ball w (integrate (currentLevel w) ri (sensorState w) dt (ball w)) in
    match goalCell w1 with
    | Some g =>
      if negb (goalReached w1) then
        if inGoalCell (cellSize ri) (pos (ball w1)) g
        then showWinModal now (pauseGame now (set_goalReached w1 true))
        else w1
      else w1
    | None => w1
    end
  end.

(** A run of frames: each frame calls [stepPhysics] with its clock
    reading and its time delta. *)
Definition run (frames : list (R * R)) (w : World) : World :=
  fold_left (fun w' f => stepPhysics (fst f) (snd f) w') frames w.

(** A session on [wallBelow] that has already reached its goal. *)
Definition completedWorld : World :=
  mkWorld wallBelow (Some wallBelowInfo) (Some (mkCell 0 0)) (Some (mkCell 0 0))
          true None true (mkBall (mkVec 4 4) (mkVec 0 0) 3)
          (mkSensor (mkVec 0 0) false false) (mkTimer 0 1500 false true) 1 [].

(** ** The sub-step count of the axis-swept variant
    ([js/levels/render_game.js]) *)

Module Legacy.

(** The constant [speed]: the larger of the two axis speeds. *)
Definition speed (v : Vec) : R := Rmax (Rabs (vx v)) (Rabs (vy v)).

(** The constant [steps]. *)
Definition steps (v : Vec) (dt cellSize : R) : Z :=
  let maxTravelPerSubStep := cellSize * 0.45 in
  Z.max 1 (ceil (speed v * dt / Rmax 1 maxTravelPerSubStep)).

(** The constant [stepDt]. *)
Definition stepDt (v : Vec) (dt cellSize : R) : R :=
  dt / IZR (steps v dt cellSize).

End Legacy.

(** ** Quantities of the further properties *)

(** The squared speed [vx * vx + vy * vy] of a velocity. *)
Definition speedSq (v : Vec) : R := vx v * vx v + vy v * vy v.

(** A session played in stretches: for each pair the timer is started
    at the first clock reading and stopped at the second. *)
Definition playStretches (l : list (R * R)) (t : TimerState) : TimerState :=
  fold_left (fun t' p => stopTimer (snd p) (startTimer (fst p) t')) l t.

(** The total length of the stretches. *)
Definition stretchesLength (l : list (R * R)) : R :=
  fold_right (fun p acc => (snd p - fst p) + acc) 0 l.

(** ** Placing and rescaling the ball *)

(** [placeBallAtStart()]; the call of [drawBall] at its end only paints
    the overlay canvas. *)
Definition placeBallAtStart (w : World) : World :=
  match renderInfo w, startCell w with
  | Some ri, Some sc =>
    let b := syncBallRadius (cellSize ri) (ball w) in
    set_goalReached
      (set_ball w (mkBall (mkVec ((IZR (cell_c sc) + 0.5) * cellSize ri)
                                 ((IZR (cell_r sc) + 0.5) * cellSize ri))
                          (mkVec 0 0)
                          (radius b)))
      false
  | _, _ => w
  end.

(** [rescaleBall(oldCellSize)]; the argument is a number or [null], and
    [0] is as falsy as [null]. *)
Definition rescaleBall (oldCellSize : option R) (w : World) : World :=
  match oldCellSize, renderInfo w with
  | Some old, Some ri =>
    if Req_dec_T old 0 then w
    else
      let scale := cellSize ri / old in
      let b := ball w in
      set_ball w (syncBallRadius (cellSize ri)
                    (mkBall (mkVec (vx (pos b) * scale) (vy (pos b) * scale))
                            (vel b) (radius b)))
  | _, _ => w
  end.

(** ** The shared grid renderer *)

(** [Math.round]: the nearest integer, halves rounded up. *)
Definition jsRound (x : R) : Z := floor (x + 0.5).

(** What a call gives back: a value, or a thrown [Error] with its message. *)
Inductive Outcome (A : Type) :=
| Returned (a : A)
| Thrown (msg : string).
Arguments Returned {A} a.
Arguments Thrown {A} msg.

(** The options of [renderGridToCanvas] that decide the layout. *)
Record RenderOptions := mkOptions { maxWidth : R; maxHeight : R; minCell : R }.

(** [grid.every(r => r.length === cols)]. *)
Definition uniformWidth (g : Grid) (ncols : nat) : bool :=
  forallb (fun r => Nat.eqb (length r) ncols) g.

(** [renderGridToCanvas(canvas, grid, options)]: [null] without a
    canvas or for a missing or empty grid, an [Error] for rows of
    different widths, otherwise the layout [{ cols, rows, cellSize }].
    The painting of the canvas is not part of the result.  The widths
    are divided by [cols]; for a first row without symbols JavaScript
    divides by zero, which is outside this model. *)
Definition renderGridToCanvas (canvas : bool) (g : option Grid)
           (opts : RenderOptions) : Outcome (option RenderInfo) :=
  match canvas, g with
  | true, Some (row0 :: rest) =>
    let nrows := length (row0 :: rest) in
    let ncols := length row0 in
    if negb (uniformWidth (row0 :: rest) ncols)
    then Thrown "Grid rows are not uniform width"
    else
      let cs := Rmax (minCell opts)
                     (IZR (floor (Rmin (maxWidth opts / INR ncols)
                                       (maxHeight opts / INR nrows)))) in
      Returned (Some (mkRenderInfo (Z.of_nat ncols) (Z.of_nat nrows) cs))
  | _, _ => Returned None
  end.

(** ** Laying the level out on the play page *)

(** What [drawGrid] reads from the page: the window size, the top of
    the [.container] element and the right edge of the back button when
    these elements exist, and whether the level canvas exists. *)
Record Viewport := mkViewport
  { innerWidth : R;
    innerHeight : R;
    containerTop : option R;
    backRight : option R;
    hasCanvas : bool }.

(** The options [drawGrid] passes to the renderer for a grid with
    [nrows] rows and a first row of [ncols0] symbols. *)
Definition drawGridOptions (vp : Viewport) (nrows ncols0 : nat) : RenderOptions :=
  let ncols := if Nat.eqb ncols0 0 then 1 else INR ncols0 in
  let reserved := match containerTop vp with
                  | Some top => IZR (jsRound (top + 8))
                  | None => 24
                  end in
  let availHeight := Rmax 120 (innerHeight vp - reserved) in
  let maxHeight := Rmin availHeight 1200 in
  let aspectWidth :=
    Rmax 200 (IZR (floor (maxHeight * (ncols / Rmax 1 (INR nrows))))) in
  let gap := 12 in
  let safeWidthLimit0 := IZR (floor (innerWidth vp * 0.95)) in
  let safeWidthLimit :=
    match backRight vp with
    | Some br =>
      let allowed := IZR (floor (innerWidth vp - 2 * (br + gap))) in
      if Rlt_dec 0 allowed then Rmin safeWidthLimit0 allowed
      else Rmin safeWidthLimit0 200
    | None => safeWidthLimit0
    end in
  let maxWidth := Rmin (Rmin aspectWidth safeWidthLimit) 1200 in
  mkOptions maxWidth maxHeight 8.

Definition set_renderInfo (w : World) (ri : option RenderInfo) : World :=
  mkWorld (currentLevel w) ri (startCell w) (goalCell w)
          (goalReached w) (animationId w) (animationPaused w) (ball w)
          (sensorState w) (timerState w) (requestedLevel w) (effects w).

(** [drawGrid(grid)] of the play page, as far as the module variables
    go: the layout is stored, and the ball is rescaled when there was a
    layout before and placed at the start otherwise.  An [Error] of the
    renderer is caught and reported in the message area, leaving the
    variables alone; margins and canvas sizes are page styling. *)
Definition drawGrid (vp : Viewport) (g : option Grid) (w : World) : World :=
  match g with
  | Some (row0 :: rest) =>
    let opts := drawGridOptions vp (length (row0 :: rest)) (length row0) in
    let oldCellSize := match renderInfo w with
                       | Some ri => Some (cellSize ri)
                       | None => None
                       end in
    match renderGridToCanvas (hasCanvas vp) g opts with
    | Returned (Some renderResult) =>
      let w1 := set_renderInfo w (Some renderResult) in
      match oldCellSize with
      | Some old => if Req_dec_T old 0 then placeBallAtStart w1
                    else rescaleBall oldCellSize w1
      | None => placeBallAtStart w1
      end
    | Returned None => w
    | Thrown _ => w
    end
  | _ => w
  end.

(** ** Choosing the level *)

(** An entry of [levels.json]: its number and its level data. *)
Record LevelEntry := mkEntry { entry_level : Z; entry_data : Level }.

(** How the handler of the fetched level list ends: with one of its four
    messages, or with a call of [renderLevel]. *)
Inductive Selection :=
| NoLevels
| NotFound
| EmptyGrid
| NotUniform
| Selected (e : LevelEntry).

(** The handler of the fetched list; [None] is a response that is not an
    array. *)
Definition selectLevel (requested : Z) (levels : option (list LevelEntry)) : Selection :=
  match levels with
  | None | Some [] => NoLevels
  | Some l =>
    match find (fun e => (entry_level e =? requested)%Z) l with
    | None => NotFound
    | Some found =>
      match grid (entry_data found) with
      | None | Some [] => EmptyGrid
      | Some (row0 :: rest) =>
        if uniformWidth (row0 :: rest) (length row0) then Selected found
        else NotUniform
      end
    end
  end.

(** ** Best times in [localStorage] *)

(** The object kept under ['levelCompletionTimes']: level numbers with
    their times in milliseconds, in the order the keys were added. *)
Definition Times := list (Z * R).

(** [times[level]], [None] for [undefined]. *)
Fixpoint lookupTime (level : Z) (times : Times) : option R :=
  match times with
  | [] => None
  | (k, v) :: tl => if (k =? level)%Z then Some v else lookupTime level tl
  end.

(** [times[level] = v]. *)
Fixpoint assignTime (level : Z) (v : R) (times : Times) : Times :=
  match times with
  | [] => [(level, v)]
  | (k, x) :: tl =>
    if (k =? level)%Z then (k, v) :: tl else (k, x) :: assignTime level v tl
  end.

(** [loadCompletionTimes()]: the stored object, or [{}] when the item
    is missing or does not parse to an object ([None]). *)
Definition loadCompletionTimes (stored : option Times) : Times :=
  match stored with
  | Some times => times
  | None => []
  end.

(** [saveCompletionTime(levelNumber, elapsedMs)], as a change of the
    stored item; a missing entry reads as [NaN], which is not finite.
    Writing to the store is taken to succeed. *)
Definition saveCompletionTime (levelNumber : Z) (elapsedMs : R)
           (stored : option Times) : option Times :=
  let ms := elapsedMs in
  if Rlt_dec ms 0 then stored
  else
    let times := loadCompletionTimes stored in
    match lookupTime levelNumber times with
    | Some existing =>
      if Rlt_dec ms existing
      then Some (assignTime levelNumber (IZR (jsRound ms)) times)
      else stored
    | None => Some (assignTime levelNumber (IZR (jsRound ms)) times)
    end.

(** The completions of one level, saved one after the other. *)
Definition saveAll (levelNumber : Z) (l : list R) (stored : option Times) : option Times :=
  fold_left (fun st ms => saveCompletionTime levelNumber ms st) l stored.

(** ** Showing a time *)

(** The integer part of a number, rounding towards zero. *)
Definition jsTrunc (x : R) : Z := if Rlt_dec x 0 then ceil x else floor x.

(** [a % b] on numbers: what is left of [a] after taking out [b] a
    whole number of times, that number rounded towards zero. *)
Definition jsRem (a b : R) : R := a - b * IZR (jsTrunc (a / b)).

(** [String(n)] for a whole number: its decimal digits, with a minus
    sign when negative. *)
Definition stringOfZ (n : Z) : string := NilZero.string_of_int (Z.to_int n).

(** [s.padStart(2, '0')]. *)
Definition padStart2 (s : string) : string :=
  match String.length s with
  | O => "00"%string
  | S O => String "0"%char s
  | _ => s
  end.

(** The three fields of [formatElapsed]: minutes, seconds, hundredths. *)
Definition elapsedFields (ms : R) : Z * Z * Z :=
  let totalSeconds := ms / 1000 in
  let minutes := floor (totalSeconds / 60) in
  let seconds := floor (jsRem totalSeconds 60) in
  let hundredths := floor (jsRem (totalSeconds * 100) 100) in
  (minutes, seconds, hundredths).

(** [formatElapsed(ms)]. *)
Definition formatElapsed (ms : R) : string :=
  let '(minutes, seconds, hundredths) := elapsedFields ms in
  let pad := fun n => padStart2 (stringOfZ n) in
  (pad minutes ++ ":" ++ pad seconds ++ "." ++ pad hundredths)%string.

(** [formatMs(ms)] of the level list; [None] is [null] or [undefined]. *)
Definition formatMs (ms : option R) : string :=
  match ms with
  | None => "-"%string
  | Some t => formatElapsed t
  end.

(** Two decimal digits of a number from [0] to [99], for comparison
    with what [formatElapsed] prints. *)
Definition digitChar (d : Z) : ascii := ascii_of_nat (48 + Z.to_nat d).

Definition twoDigits (n : Z) : string :=
  String (digitChar (n / 10)) (String (digitChar (n mod 10)) EmptyString).

(** ** Input: tilt and keys ([js/levels/render_game.js]) *)

(** A [deviceorientation] event; an angle the device does not report
    is [null]. *)
Record OrientationEvent := mkOrientation { gamma : option R; beta : option R }.

(** [x || 0] on a number or [null]. *)
Definition orZero (x : option R) : R :=
  match x with
  | Some v => v
  | None => 0
  end.

(** [handleOrientation(event)], with the screen angle it reads. *)
Definition handleOrientation (angle : Z) (event : OrientationEvent)
           (s : SensorState) : SensorState :=
  let g := clamp (orZero (gamma event)) (-50) 50 in
  let b := clamp (orZero (beta event)) (-50) 50 in
  let '(xTilt, yTilt) :=
    if (angle =? 90)%Z then (b, - g)
    else if ((angle =? -90) || (angle =? 270))%Z then (- b, g)
    else if (angle =? 180)%Z then (- g, - b)
    else (g, b) in
  let normX := clamp (xTilt / 45) (-1) 1 in
  let normY := clamp (yTilt / 45) (-1) 1 in
  let accelScale := 900 in
  mkSensor (mkVec (normX * accelScale) (normY * accelScale)) (enabled s) true.

(** The module constant [keyState]. *)
Record KeyState := mkKeys
  { key_left : bool; key_right : bool; key_up : bool; key_down : bool }.




(** [computeAcceleration()] of the variants with keys. *)
Definition computeAccelerationKeys (s : SensorState) (k : KeyState) : R * R :=
  let ax0 := 0 in
  let ay0 := 0 in
  let '(ax1, ay1) := if enabled s && available s
                     then (ax0 + vx (accel s), ay0 + vy (accel s))
                     else (ax0, ay0) in
  let keyAccel := 700 in
  let ax2 := if key_left k then ax1 - keyAccel else ax1 in
  let ax3 := if key_right k then ax2 + keyAccel else ax2 in
  let ay2 := if key_up k then ay1 - keyAccel else ay1 in
  let ay3 := if key_down k then ay2 + keyAccel else ay2 in
  (ax3, ay3).

(** ** The axis-swept step of [js/levels/render_game.js] *)

Module AxisSwept.

(** The module variables [stepPhysics] reads and writes; [message] is
    the text and type last given to [showMessage]. *)
Record State := mkState
  { currentLevel : option Level;
    renderInfo : option RenderInfo;
    goalCell : option Cell;
    goalReached : bool;
    ball : Ball;
    sensorState : SensorState;
    keyState : KeyState;
    message : option (string * string) }.

(** The loop over a band that stops at its first wall tile. *)
Definition wallInColumn (lvl : option Level) (col : Z) (band : list Z) : bool :=
  existsb (fun r => isWall lvl col r) band.

Definition wallInRow (lvl : option Level) (row : Z) (band : list Z) : bool :=
  existsb (fun c => isWall lvl c row) band.

(** The horizontal move of one sub-step. *)
Definition moveX (lvl : option Level) (ri : RenderInfo)
           (rad cs stepDt : R) (b : Ball) : Ball :=
  let nextX := vx (pos b) + vx (vel b) * stepDt in
  let minRow := Z.max 0 (floor ((vy (pos b) - rad) / cs)) in
  let maxRow := Z.min (rows ri - 1) (floor ((vy (pos b) + rad) / cs)) in
  let '(nextX', velX) :=
    if Rlt_dec 0 (vx (vel b)) then
      let col := floor ((nextX + rad) / cs) in
      if wallInColumn lvl col (zrange minRow maxRow)
      then (IZR col * cs - rad - 0.01, 0)
      else (nextX, vx (vel b))
    else if Rlt_dec (vx (vel b)) 0 then
      let col := floor ((nextX - rad) / cs) in
      if wallInColumn lvl col (zrange minRow maxRow)
      then ((IZR col + 1) * cs + rad + 0.01, 0)
      else (nextX, vx (vel b))
    else (nextX, vx (vel b)) in
  let maxX := IZR (cols ri) * cs - rad in
  mkBall (mkVec (clamp nextX' rad maxX) (vy (pos b)))
         (mkVec velX (vy (vel b)))
         (radius b).

(** The vertical move, made from the position the horizontal move left. *)
Definition moveY (lvl : option Level) (ri : RenderInfo)
           (rad cs stepDt : R) (b : Ball) : Ball :=
  let nextY := vy (pos b) + vy (vel b) * stepDt in
  let minCol := Z.max 0 (floor ((vx (pos b) - rad) / cs)) in
  let maxCol := Z.min (cols ri - 1) (floor ((vx (pos b) + rad) / cs)) in
  let '(nextY', velY) :=
    if Rlt_dec 0 (vy (vel b)) then
      let row := floor ((nextY + rad) / cs) in
      if wallInRow lvl row (zrange minCol maxCol)
      then (IZR row * cs - rad - 0.01, 0)
      else (nextY, vy (vel b))
    else if Rlt_dec (vy (vel b)) 0 then
      let row := floor ((nextY - rad) / cs) in
      if wallInRow lvl row (zrange minCol maxCol)
      then ((IZR row + 1) * cs + rad + 0.01, 0)
      else (nextY, vy (vel b))
    else (nextY, vy (vel b)) in
  let maxY := IZR (rows ri) * cs - rad in
  mkBall (mkVec (vx (pos b)) (clamp nextY' rad maxY))
         (mkVec (vx (vel b)) velY)
         (radius b).

(** One turn of the sub-step loop. *)
Definition subStep (lvl : option Level) (ri : RenderInfo)
           (rad cs stepDt : R) (b : Ball) : Ball :=
  moveY lvl ri rad cs stepDt (moveX lvl ri rad cs stepDt b).

(** The velocity update, with the acceleration of tilt and keys. *)
Definition dampedVelocity (s : SensorState) (k : KeyState) (dt : R) (v : Vec) : Vec :=
  let '(ax, ay) := computeAccelerationKeys s k in
  mkVec ((vx v + ax * dt) * exp (- friction * dt))
        ((vy v + ay * dt) * exp (- friction * dt)).

(** The ball after the velocity update and the sub-step loop. *)
Definition integrate (lvl : option Level) (ri : RenderInfo)
           (s : SensorState) (k : KeyState) (dt : R) (b : Ball) : Ball :=
  let v := dampedVelocity s k dt (vel b) in
  let cs := cellSize ri in
  let rad := radius b in
  let n := Legacy.steps v dt cs in
  let stepDt := dt / IZR n in
  Nat.iter (Z.to_nat n) (subStep lvl ri rad cs stepDt) (mkBall (pos b) v rad).

(** [stepPhysics(dt)]. *)
Definition stepPhysics (dt : R) (w : State) : State :=
  match renderInfo w with
  | None => w
  | Some ri =>
    let b := integrate (currentLevel w) ri (sensorState w) (keyState w) dt (ball w) in
    let w1 := mkState (currentLevel w) (renderInfo w) (goalCell w) (goalReached w)
                      b (sensorState w) (keyState w) (message w) in
    match goalCell w with
    | Some g =>
      if negb (goalReached w) then
        if inGoalCell (cellSize ri) (pos b) g
        then mkState (currentLevel w) (renderInfo w) (goalCell w) true
                     b (sensorState w) (keyState w)
                     (Some ("You reached the goal! Tilt or use arrows to play again.",
                            "success")%string)
        else w1
      else w1
    | None => w1
    end
  end.

End AxisSwept.

(** ** The frame loop and the start of a level *)

(** The module variables of the play page that are not in [World]. *)
Record Page := mkPage
  { world : World;
    lastFrameTime : option R;
    timerStartBound : bool }.

Definition set_animation (w : World) (id : option Z) (paused : bool)
           (extra : list Effect) : World :=
  mkWorld (currentLevel w) (renderInfo w) (startCell w) (goalCell w)
          (goalReached w) id paused (ball w)
          (sensorState w) (timerState w) (requestedLevel w) (effects w ++ extra).

(** [startLoop()]; [nextId] is what [requestAnimationFrame] returns. *)
Definition startLoop (nextId : Z) (p : Page) : Page :=
  let w := world p in
  let cancelled := match animationId w with
                   | Some id => [CancelAnimationFrame id]
                   | None => []
                   end in
  mkPage (set_animation w (Some nextId) false cancelled) None (timerStartBound p).

(** The time delta of a frame, in seconds. *)
Definition frameDt (timestamp last : R) : R :=
  Rmin 0.032 (Rmax 0.001 ((timestamp - last) / 1000)).

(** [loop(timestamp)]: [now] is the reading of [performance.now()]
    during the step, [nextId] what [requestAnimationFrame] returns; the
    call of [drawBall] only paints. *)
Definition loop (now timestamp : R) (nextId : Z) (p : Page) : Page :=
  let w := world p in
  if animationPaused w
  then mkPage (set_animation w None (animationPaused w) []) (lastFrameTime p)
              (timerStartBound p)
  else
    match currentLevel w, renderInfo w with
    | Some _, Some _ =>
      let last := match lastFrameTime p with
                  | Some t => t
                  | None => timestamp
                  end in
      let dt := frameDt timestamp last in
      let w1 := stepPhysics now dt w in
      if animationPaused w1
      then mkPage (set_animation w1 None (animationPaused w1) []) (Some timestamp)
                  (timerStartBound p)
      else mkPage (set_animation w1 (Some nextId) (animationPaused w1) [])
                  (Some timestamp) (timerStartBound p)
    | _, _ => p
    end.

Definition set_level (w : World) (lv : option Level) (t : TimerState)
           (sc gc : option Cell) : World :=
  mkWorld lv (renderInfo w) sc gc
          (goalReached w) (animationId w) (animationPaused w) (ball w)
          (sensorState w) t (requestedLevel w) (effects w).

(** [renderLevel(levelObj)] of the play page.  A level without a grid
    makes [findSpecialCells] fail on [grid.length]; the page is then
    returned as it was at that point, with the name of the error.  The
    listeners bound by [bindTimerStartOnce] and the messages are page
    wiring. *)
Definition renderLevel (vp : Viewport) (nextId : Z) (levelObj : option Level)
           (p : Page) : Page * option string :=
  match levelObj with
  | None => (p, None)
  | Some lv =>
    let w := world p in
    let t := resetTimer (timerState w) in
    match grid lv with
    | None =>
      (mkPage (set_level w (Some lv) t (startCell w) (goalCell w))
              (lastFrameTime p) true,
       Some "TypeError"%string)
    | Some g =>
      let specials := findSpecialCells g in
      let w1 := set_level w (Some lv) t (start specials) (goal specials) in
      let w2 := drawGrid vp (Some g) w1 in
      let w3 := placeBallAtStart w2 in
      (startLoop nextId (mkPage w3 (lastFrameTime p) true), None)
    end
  end.

(** * Properties *)

(** ** Numbers *)

Lemma clamp_bounds (val lo hi : R) :
  lo <= hi -> lo <= clamp val lo hi <= hi.
Proof.
  intro Hle. unfold clamp. split.
  - apply Rmin_glb; [exact Hle | apply Rmax_l].
  - apply Rmin_l.
Qed.

Lemma clamp_inside (val lo hi : R) :
  lo <= val <= hi -> clamp val lo hi = val.
Proof.
  intros [Hlo Hhi]. unfold clamp.
  rewrite (Rmax_right lo val Hlo). apply Rmin_right. exact Hhi.
Qed.

Lemma floor_unique (x : R) (z : Z) :
  IZR z <= x < IZR z + 1 -> floor x = z.
Proof.
  intros [H1 H2]. unfold floor. symmetry. apply Int_part_spec. lra.
Qed.


Lemma zrange_empty (lo hi : Z) : (hi < lo)%Z -> zrange lo hi = [].
Proof.
  intro H. unfold zrange.
  replace (Z.to_nat (hi - lo + 1)) with O by lia. reflexivity.
Qed.

(** ** Grid model *)

Lemma rectangular_first_row (g : Grid) (n : nat) :
  rectangular g n -> g <> [] -> length (nth 0 g []) = n.
Proof.
  intros Hrect Hne. destruct g as [| row rest]; [congruence |].
  simpl. exact (Forall_inv Hrect).
Qed.

Lemma rectangular_row (g : Grid) (n : nat) (i : nat) (row : Row) :
  rectangular g n -> nth_error g i = Some row -> length row = n.
Proof.
  intros Hrect Hnth. unfold rectangular in Hrect.
  rewrite Forall_forall in Hrect. apply Hrect.
  eapply nth_error_In; eassumption.
Qed.

(** C4.  Closed world: on a loaded rectangular grid, [isWall] is [true]
    at every coordinate outside the grid, and at a cell of the grid it is
    [true] exactly when the symbol stored there is ['#']. *)
Theorem isWall_closed_world (g : Grid) (ncols : nat) (col row : Z) :
  rectangular g ncols ->
  let lvl := Some (mkLevel (Some g)) in
  ((row < 0 \/ col < 0 \/ row >= Z.of_nat (length g) \/ col >= Z.of_nat ncols)%Z ->
   isWall lvl col row = true)
  /\
  ((0 <= row < Z.of_nat (length g) /\ 0 <= col < Z.of_nat ncols)%Z ->
   exists ch, tileAt g col row = Some ch
              /\ isWall lvl col row = Ascii.eqb ch "#"
              /\ (isWall lvl col row = true <-> ch = "#"%char)).
Proof.
  intros Hrect lvl. unfold lvl, isWall; simpl. split.
  - intros Hout.
    destruct ((row <? 0) || (col <? 0))%Z eqn:Hneg; [reflexivity |].
    apply orb_false_iff in Hneg as [Hr Hc].
    apply Z.ltb_ge in Hr, Hc.
    destruct (row >=? Z.of_nat (length g))%Z eqn:Hrow; [reflexivity |].
    assert (Hlt : (row < Z.of_nat (length g))%Z) by lia.
    assert (Hne : g <> []) by (intro E; subst g; simpl in Hlt; lia).
    rewrite (rectangular_first_row g ncols Hrect Hne). simpl.
    destruct (col >=? Z.of_nat ncols)%Z eqn:Hcol; [reflexivity | lia].
  - intros [[Hr0 Hr1] [Hc0 Hc1]].
    assert (Hne : g <> []) by (intro E; subst g; simpl in Hr1; lia).
    rewrite (rectangular_first_row g ncols Hrect Hne).
    unfold tileAt.
    replace ((row <? 0) || (col <? 0))%Z with false
      by (symmetry; apply orb_false_iff; split; apply Z.ltb_ge; lia).
    replace ((row >=? Z.of_nat (length g)) || (col >=? Z.of_nat ncols))%Z with false
      by (symmetry; apply orb_false_iff; split; lia).
    destruct (nth_error g (Z.to_nat row)) as [rw |] eqn:Hrw.
    2:{ apply nth_error_None in Hrw. lia. }
    rewrite (nth_error_nth g (Z.to_nat row) [] Hrw).
    pose proof (rectangular_row g ncols _ rw Hrect Hrw) as Hlen.
    destruct (nth_error rw (Z.to_nat col)) as [ch |] eqn:Hch.
    2:{ apply nth_error_None in Hch. lia. }
    exists ch. split; [reflexivity |]. split; [reflexivity |].
    unfold WALL. apply Ascii.eqb_eq.
Qed.

Lemma sampleGrid_rectangular : rectangular sampleGrid 2.
Proof. repeat constructor. Qed.

Lemma isWall_closed_world_witness :
  isWall (Some (mkLevel (Some sampleGrid))) 2 0 = true.
Proof.
  apply (isWall_closed_world sampleGrid 2 2 0 sampleGrid_rectangular).
  right; right; right. simpl. lia.
Defined.

(** C10.  With no level loaded, or a level without a grid, [isWall] is
    [false] at every coordinate, negative and oversized ones included. *)
Theorem isWall_no_level (col row : Z) :
  isWall None col row = false /\ isWall (Some (mkLevel None)) col row = false.
Proof. split; reflexivity. Qed.

(** ** Session timer *)

Lemma round_trip_from_paused (t : TimerState) (now T later : R) :
  running t = false ->
  getElapsedMs later (stopTimer (now + T) (startTimer now t)) = elapsedMs t + T.
Proof.
  intro Hr. unfold startTimer. rewrite Hr.
  unfold stopTimer, getElapsedMs; simpl. lra.
Qed.

(** C9.  [startTimer] does nothing to a running timer and otherwise
    records the clock reading as origin; [stopTimer] does nothing to a
    stopped timer and otherwise adds [now - origin] to the accumulated
    time; so on a fresh or reset timer, start, [T] later stop, then
    [getElapsedMs] gives [T], and after [resetTimer] it gives [0]. *)
Theorem timer_semantics (t : TimerState) (now T later : R) :
  (running t = true -> startTimer now t = t)
  /\ (running t = false ->
      startTimer now t = mkTimer now (elapsedMs t) true true)
  /\ (running t = false -> stopTimer now t = t)
  /\ (running t = true ->
      stopTimer now t =
      mkTimer (startTime t) (elapsedMs t + (now - startTime t)) false (started t))
  /\ getElapsedMs later (stopTimer (now + T) (startTimer now timerState0)) = T
  /\ getElapsedMs later (stopTimer (now + T) (startTimer now (resetTimer t))) = T
  /\ getElapsedMs later (resetTimer t) = 0.
Proof.
  repeat split.
  - intro H. unfold startTimer. rewrite H. reflexivity.
  - intro H. unfold startTimer. rewrite H. reflexivity.
  - intro H. unfold stopTimer. rewrite H. reflexivity.
  - intro H. unfold stopTimer. rewrite H. reflexivity.
  - rewrite round_trip_from_paused by reflexivity. simpl. lra.
  - rewrite round_trip_from_paused by reflexivity. simpl. lra.
Qed.

Lemma timer_semantics_witness :
  startTimer 7 (mkTimer 1 2 true true) = mkTimer 1 2 true true
  /\ stopTimer 7 (mkTimer 1 2 false true) = mkTimer 1 2 false true.
Proof.
  split.
  - apply (timer_semantics (mkTimer 1 2 true true) 7 0 0). reflexivity.
  - apply (timer_semantics (mkTimer 1 2 false true) 7 0 0). reflexivity.
Defined.

(** ** Ball radius *)

Lemma syncBallRadius_value (cs : R) (b : Ball) :
  0 <= cs -> radius (syncBallRadius cs b) = Rmax 3 (cs * 0.35).
Proof.
  intro H. unfold syncBallRadius; simpl.
  rewrite Rmin_left by lra. reflexivity.
Qed.

(** C6, as the code has it.  When [0.45 * cellSize] is at least [3]
    (every cell size from [20/3] up, so every size the renderer returns,
    all at least [8]), [3 <= radius <= 0.45 * cellSize] after
    [syncBallRadius(cellSize)]; for a smaller positive cell size the
    radius is the floor value [3], above [0.45 * cellSize]. *)
Theorem syncBallRadius_bounds (cs : R) (b : Ball) :
  (3 <= 0.45 * cs -> 3 <= radius (syncBallRadius cs b) <= 0.45 * cs)
  /\ (0 < cs -> 0.45 * cs < 3 ->
      radius (syncBallRadius cs b) = 3 /\ 0.45 * cs < radius (syncBallRadius cs b)).
Proof.
  split.
  - intro H. rewrite syncBallRadius_value by lra. split.
    + apply Rmax_l.
    + apply Rmax_lub; lra.
  - intros Hpos Hsmall. rewrite syncBallRadius_value by lra.
    rewrite Rmax_left by lra. split; lra.
Qed.

Lemma syncBallRadius_bounds_witness :
  3 <= radius (syncBallRadius 8 (mkBall (mkVec 0 0) (mkVec 0 0) 8)) <= 0.45 * 8.
Proof.
  apply (syncBallRadius_bounds 8 (mkBall (mkVec 0 0) (mkVec 0 0) 8)). lra.
Defined.

(** C6 fails as stated at [cellSize = 1]: the radius is [3], which is
    more than [0.45]. *)
Lemma syncBallRadius_counterexample :
  0 < 1
  /\ radius (syncBallRadius 1 (mkBall (mkVec 0 0) (mkVec 0 0) 8)) = 3
  /\ ~ (3 <= radius (syncBallRadius 1 (mkBall (mkVec 0 0) (mkVec 0 0) 8)) <= 0.45 * 1).
Proof.
  assert (E : radius (syncBallRadius 1 (mkBall (mkVec 0 0) (mkVec 0 0) 8)) = 3).
  { rewrite syncBallRadius_value by lra. apply Rmax_left. lra. }
  split; [lra |]. split; [exact E |]. rewrite E. lra.
Qed.

(** ** Sub-step count *)

Lemma steps_positive (speed dt cs : R) : (1 <= steps speed dt cs)%Z.
Proof. unfold steps. apply Z.le_max_l. Qed.






(** ** Start and goal cells *)

Lemma indexOf_first (ch : ascii) (row : Row) :
  indexOf ch row <> (-1)%Z ->
  (0 <= indexOf ch row)%Z
  /\ nth_error row (Z.to_nat (indexOf ch row)) = Some ch
  /\ forall j, nth_error row j = Some ch -> (indexOf ch row <= Z.of_nat j)%Z.
Proof.
  induction row as [| s tl IH]; simpl.
  - intro H. congruence.
  - destruct (Ascii.eqb s ch) eqn:Es.
    + intros _. apply Ascii.eqb_eq in Es. subst s.
      split; [lia |]. split; [reflexivity |]. intros j _. lia.
    + destruct (indexOf ch tl =? -1)%Z eqn:Ei; [intro H; congruence |].
      intros _. apply Z.eqb_neq in Ei.
      destruct (IH Ei) as (H0 & Hn & Hmin).
      split; [lia |]. split.
      * replace (Z.to_nat (indexOf ch tl + 1)) with (S (Z.to_nat (indexOf ch tl))) by lia.
        exact Hn.
      * intros [| j] Hj; simpl in Hj.
        -- injection Hj as Hj. subst s. rewrite Ascii.eqb_refl in Es. discriminate.
        -- specialize (Hmin j Hj). lia.
Qed.

Lemma indexOf_absent (ch : ascii) (row : Row) :
  indexOf ch row = (-1)%Z -> forall j, nth_error row j <> Some ch.
Proof.
  induction row as [| s tl IH]; simpl.
  - intros _ [| j]; discriminate.
  - destruct (Ascii.eqb s ch) eqn:Es; [intro H; lia |].
    destruct (indexOf ch tl =? -1)%Z eqn:Ei.
    + intros _. apply Z.eqb_eq in Ei. intros [| j]; simpl.
      * intro Hj. injection Hj as Hj. subst s.
        rewrite Ascii.eqb_refl in Es. discriminate.
      * apply IH. exact Ei.
    + apply Z.eqb_neq in Ei. intro H.
      destruct (indexOf_first ch tl Ei) as (H0 & _). lia.
Qed.

Lemma indexOf_existsb (ch : ascii) (row : Row) :
  existsb (fun s => Ascii.eqb s ch) row = negb (indexOf ch row =? -1)%Z.
Proof.
  induction row as [| s tl IH]; simpl; [reflexivity |].
  destruct (Ascii.eqb s ch); simpl; [reflexivity |].
  rewrite IH. destruct (indexOf ch tl =? -1)%Z eqn:Ei; simpl; [reflexivity |].
  apply Z.eqb_neq in Ei. destruct (indexOf_first ch tl Ei) as (H0 & _).
  symmetry. apply negb_true_iff. apply Z.eqb_neq. lia.
Qed.

Lemma scanRow_indexOf (ch : ascii) (r c : Z) (row : Row) :
  SpecReading.scanRow ch r c row =
  if (indexOf ch row =? -1)%Z then None
  else Some (mkCell r (c + indexOf ch row)).
Proof.
  revert c. induction row as [| s tl IH]; intro c; simpl; [reflexivity |].
  destruct (Ascii.eqb s ch) eqn:Es; simpl.
  - f_equal. f_equal. lia.
  - rewrite IH. destruct (indexOf ch tl =? -1)%Z eqn:Ei; simpl; [reflexivity |].
    apply Z.eqb_neq in Ei. destruct (indexOf_first ch tl Ei) as (H0 & _).
    replace (indexOf ch tl + 1 =? -1)%Z with false by (symmetry; apply Z.eqb_neq; lia).
    f_equal. f_equal. lia.
Qed.

Lemma holds_nth (g : Grid) (ch : ascii) (cell : Cell) :
  holds g ch cell <->
  (0 <= cell_r cell)%Z /\ (0 <= cell_c cell)%Z /\
  exists row, nth_error g (Z.to_nat (cell_r cell)) = Some row
              /\ nth_error row (Z.to_nat (cell_c cell)) = Some ch.
Proof.
  unfold holds, tileAt. split.
  - destruct ((cell_r cell <? 0) || (cell_c cell <? 0))%Z eqn:Hneg; [discriminate |].
    apply orb_false_iff in Hneg as [Hr Hc]. apply Z.ltb_ge in Hr, Hc.
    destruct (nth_error g (Z.to_nat (cell_r cell))) as [row |]; [| discriminate].
    intro H. split; [exact Hr |]. split; [exact Hc |]. exists row. split; [reflexivity | exact H].
  - intros (Hr & Hc & row & Hrow & Hch).
    replace ((cell_r cell <? 0) || (cell_c cell <? 0))%Z with false
      by (symmetry; apply orb_false_iff; split; apply Z.ltb_ge; lia).
    rewrite Hrow. exact Hch.
Qed.

Section SpecialCellLoop.

(** The loop treats ['S'] with [start] and ['G'] with [goal] alike. *)
Variable ch : ascii.
Variable proj : Specials -> option Cell.
Hypothesis proj_body : forall acc r row,
  proj (findSpecialCells_body acc r row) =
  if negb (indexOf ch row =? -1)%Z
  then Some (mkCell r (indexOf ch row)) else proj acc.

Lemma loop_last_row (g : Grid) : forall (r : Z) (acc : Specials),
  match proj (findSpecialCells_loop r g acc) with
  | Some cell =>
    (proj acc = Some cell /\ forall row, In row g -> indexOf ch row = (-1)%Z)
    \/ exists i row,
        nth_error g i = Some row
        /\ indexOf ch row <> (-1)%Z
        /\ cell = mkCell (r + Z.of_nat i) (indexOf ch row)
        /\ forall j row', (i < j)%nat -> nth_error g j = Some row' ->
                          indexOf ch row' = (-1)%Z
  | None =>
    proj acc = None /\ forall row, In row g -> indexOf ch row = (-1)%Z
  end.
Proof.
  induction g as [| row rest IH]; intros r acc; simpl.
  - destruct (proj acc) as [cell |].
    + left. split; [reflexivity | intros row []].
    + split; [reflexivity | intros row []].
  - specialize (IH (r + 1)%Z (findSpecialCells_body acc r row)).
    rewrite proj_body in IH.
    destruct (proj (findSpecialCells_loop (r + 1) rest (findSpecialCells_body acc r row)))
      as [cell |].
    + destruct IH as [[Hacc Hrest] | (i & row' & Hi & Hne & Hcell & Hlater)].
      * destruct (indexOf ch row =? -1)%Z eqn:Ei; simpl in Hacc.
        -- apply Z.eqb_eq in Ei. left. split; [exact Hacc |].
           intros row' [E | Hin]; [subst row'; exact Ei | apply Hrest; exact Hin].
        -- apply Z.eqb_neq in Ei. right. exists O, row.
           split; [reflexivity |]. split; [exact Ei |].
           split; [injection Hacc as Hacc; subst cell; f_equal; lia |].
           intros [| j] row' Hj Hnth; [lia |]. simpl in Hnth.
           apply Hrest. eapply nth_error_In; eassumption.
      * right. exists (S i), row'.
        split; [exact Hi |]. split; [exact Hne |].
        split; [subst cell; f_equal; lia |].
        intros [| j] row'' Hj Hnth; [lia |]. simpl in Hnth.
        apply (Hlater j row''); [lia | exact Hnth].
    + destruct IH as [Hacc Hrest].
      destruct (indexOf ch row =? -1)%Z eqn:Ei; simpl in Hacc; [| discriminate].
      apply Z.eqb_eq in Ei. split; [exact Hacc |].
      intros row' [E | Hin]; [subst row'; exact Ei | apply Hrest; exact Hin].
Qed.

Lemma loop_keeps (g : Grid) : forall (r : Z) (acc : Specials),
  rowsHolding ch g = [] -> proj (findSpecialCells_loop r g acc) = proj acc.
Proof.
  induction g as [| row rest IH]; intros r acc Hnone; simpl; [reflexivity |].
  unfold rowsHolding in Hnone. simpl in Hnone.
  destruct (existsb (fun s => Ascii.eqb s ch) row) eqn:Ex; [discriminate |].
  rewrite IH by exact Hnone. rewrite proj_body.
  rewrite <- indexOf_existsb, Ex. reflexivity.
Qed.

Lemma scan_none (g : Grid) : forall (r : Z),
  rowsHolding ch g = [] -> SpecReading.scanGrid ch r g = None.
Proof.
  induction g as [| row rest IH]; intros r Hnone; simpl; [reflexivity |].
  unfold rowsHolding in Hnone. simpl in Hnone.
  destruct (existsb (fun s => Ascii.eqb s ch) row) eqn:Ex; [discriminate |].
  rewrite scanRow_indexOf.
  rewrite indexOf_existsb in Ex. apply negb_false_iff in Ex. rewrite Ex.
  apply IH. exact Hnone.
Qed.

Lemma loop_single_row (g : Grid) : forall (r : Z) (acc : Specials),
  (length (rowsHolding ch g) <= 1)%nat ->
  proj acc = None ->
  proj (findSpecialCells_loop r g acc) = SpecReading.scanGrid ch r g.
Proof.
  induction g as [| row rest IH]; intros r acc Hone Hacc; simpl; [exact Hacc |].
  unfold rowsHolding in Hone. simpl in Hone.
  rewrite scanRow_indexOf.
  destruct (existsb (fun s => Ascii.eqb s ch) row) eqn:Ex.
  - simpl in Hone.
    assert (Hrest : rowsHolding ch rest = []).
    { unfold rowsHolding.
      destruct (filter (fun row0 => existsb (fun s => Ascii.eqb s ch) row0) rest);
        [reflexivity | simpl in Hone; lia]. }
    rewrite loop_keeps by exact Hrest. rewrite proj_body.
    rewrite indexOf_existsb in Ex. apply negb_true_iff in Ex. rewrite Ex. simpl.
    f_equal; f_equal; lia.
  - rewrite indexOf_existsb in Ex. apply negb_false_iff in Ex. rewrite Ex.
    apply IH; [exact Hone |]. rewrite proj_body, Ex. exact Hacc.
Qed.

Lemma loop_characterised (g : Grid) (acc : Specials) :
  proj acc = None ->
  match proj (findSpecialCells_loop 0 g acc) with
  | Some cell => lastRowFirstCol g ch cell
  | None => forall cell, ~ holds g ch cell
  end.
Proof.
  intro Hacc. pose proof (loop_last_row g 0%Z acc) as H.
  destruct (proj (findSpecialCells_loop 0 g acc)) as [cell |].
  - destruct H as [[Habs _] | (i & row & Hi & Hne & Hcell & Hlater)]; [congruence |].
    destruct (indexOf_first ch row Hne) as (H0 & Hn & Hmin).
    subst cell. split.
    + apply holds_nth. simpl. split; [lia |]. split; [lia |].
      exists row. split; [| exact Hn].
      simpl. rewrite Nat2Z.id. exact Hi.
    + intros cell' Hh. apply holds_nth in Hh.
      destruct Hh as (Hr & Hc & row' & Hrow' & Hch'). simpl.
      destruct (Nat.lt_trichotomy (Z.to_nat (cell_r cell')) i) as [Hlt | [Heq | Hgt]].
      * left. lia.
      * right. split; [lia |]. rewrite Heq in Hrow'.
        assert (row' = row) by congruence. subst row'.
        specialize (Hmin _ Hch'). lia.
      * exfalso. pose proof (Hlater _ _ Hgt Hrow') as Hnone.
        exact (indexOf_absent ch row' Hnone _ Hch').
  - destruct H as [_ Hall]. intros cell Hh. apply holds_nth in Hh.
    destruct Hh as (_ & _ & row & Hrow & Hch).
    apply nth_error_In in Hrow.
    exact (indexOf_absent ch row (Hall row Hrow) _ Hch).
Qed.

End SpecialCellLoop.

Lemma start_body (acc : Specials) (r : Z) (row : Row) :
  start (findSpecialCells_body acc r row) =
  if negb (indexOf "S" row =? -1)%Z
  then Some (mkCell r (indexOf "S" row)) else start acc.
Proof. reflexivity. Qed.

Lemma goal_body (acc : Specials) (r : Z) (row : Row) :
  goal (findSpecialCells_body acc r row) =
  if negb (indexOf "G" row =? -1)%Z
  then Some (mkCell r (indexOf "G" row)) else goal acc.
Proof. reflexivity. Qed.

Lemma scanGrid_first (ch : ascii) (g : Grid) : forall (r : Z),
  match SpecReading.scanGrid ch r g with
  | Some cell =>
    exists i row,
      nth_error g i = Some row
      /\ indexOf ch row <> (-1)%Z
      /\ cell = mkCell (r + Z.of_nat i) (indexOf ch row)
      /\ forall j row', (j < i)%nat -> nth_error g j = Some row' ->
                        indexOf ch row' = (-1)%Z
  | None => forall row, In row g -> indexOf ch row = (-1)%Z
  end.
Proof.
  induction g as [| row rest IH]; intro r; simpl.
  - intros row [].
  - rewrite scanRow_indexOf.
    destruct (indexOf ch row =? -1)%Z eqn:Ei.
    + apply Z.eqb_eq in Ei. specialize (IH (r + 1)%Z).
      destruct (SpecReading.scanGrid ch (r + 1) rest) as [cell |].
      * destruct IH as (i & row' & Hi & Hne & Hcell & Hbefore).
        exists (S i), row'. split; [exact Hi |]. split; [exact Hne |].
        split; [subst cell; f_equal; lia |].
        intros [| j] row'' Hj Hnth; simpl in Hnth.
        -- injection Hnth as Hnth. subst row''. exact Ei.
        -- apply (Hbefore j row''); [lia | exact Hnth].
      * intros row' [E | Hin]; [subst row'; exact Ei | apply IH; exact Hin].
    + apply Z.eqb_neq in Ei. exists O, row.
      split; [reflexivity |]. split; [exact Ei |].
      split; [f_equal; lia |]. intros j row' Hj. lia.
Qed.

(** The reading of the specification does pick the first occurrence in
    scan order. *)
Lemma firstOccurrence_first (ch : ascii) (g : Grid) :
  match SpecReading.firstOccurrence ch g with
  | Some cell => firstInScanOrder g ch cell
  | None => forall cell, ~ holds g ch cell
  end.
Proof.
  unfold SpecReading.firstOccurrence.
  pose proof (scanGrid_first ch g 0%Z) as H.
  destruct (SpecReading.scanGrid ch 0 g) as [cell |].
  - destruct H as (i & row & Hi & Hne & Hcell & Hbefore).
    destruct (indexOf_first ch row Hne) as (H0 & Hn & Hmin).
    subst cell. split.
    + apply holds_nth. simpl. split; [lia |]. split; [lia |].
      exists row. split; [| exact Hn]. rewrite Nat2Z.id. exact Hi.
    + intros cell' Hh. apply holds_nth in Hh.
      destruct Hh as (Hr & Hc & row' & Hrow' & Hch'). simpl.
      destruct (Nat.lt_trichotomy (Z.to_nat (cell_r cell')) i) as [Hlt | [Heq | Hgt]].
      * exfalso. pose proof (Hbefore _ _ Hlt Hrow') as Hnone.
        exact (indexOf_absent ch row' Hnone _ Hch').
      * right. split; [lia |]. rewrite Heq in Hrow'.
        assert (row' = row) by congruence. subst row'.
        specialize (Hmin _ Hch'). lia.
      * left. lia.
  - intros cell Hh. apply holds_nth in Hh.
    destruct Hh as (_ & _ & row & Hrow & Hch).
    apply nth_error_In in Hrow.
    exact (indexOf_absent ch row (H row Hrow) _ Hch).
Qed.

(** C5, as the code has it.  The start (goal) cell computed by
    [findSpecialCells] is in the last row that holds an ['S'] (a ['G']),
    at the first column holding it in that row, and is [null] when no
    cell holds the symbol; when the symbol occurs in at most one row, as
    in a level with a single start and a single goal, this is the first
    occurrence in scan order. *)
Theorem findSpecialCells_last_row (g : Grid) :
  match start (findSpecialCells g) with
  | Some cell => lastRowFirstCol g "S" cell
  | None => forall cell, ~ holds g "S" cell
  end
  /\ match goal (findSpecialCells g) with
     | Some cell => lastRowFirstCol g "G" cell
     | None => forall cell, ~ holds g "G" cell
     end
  /\ ((length (rowsHolding "S" g) <= 1)%nat ->
      start (findSpecialCells g) = SpecReading.firstOccurrence "S" g)
  /\ ((length (rowsHolding "G" g) <= 1)%nat ->
      goal (findSpecialCells g) = SpecReading.firstOccurrence "G" g).
Proof.
  unfold findSpecialCells, SpecReading.firstOccurrence.
  split; [| split; [| split]].
  - apply (loop_characterised "S" start start_body). reflexivity.
  - apply (loop_characterised "G" goal goal_body). reflexivity.
  - intro H. apply (loop_single_row "S" start start_body); [exact H | reflexivity].
  - intro H. apply (loop_single_row "G" goal goal_body); [exact H | reflexivity].
Qed.

Lemma findSpecialCells_last_row_witness :
  start (findSpecialCells sampleGrid) = SpecReading.firstOccurrence "S" sampleGrid.
Proof.
  apply (findSpecialCells_last_row sampleGrid). vm_compute. lia.
Defined.

(** C5 fails as stated on the grid with rows ["S."] and [".S"]: the
    first ['S'] in scan order is at row 0, column 0, and
    [findSpecialCells] returns row 1, column 1. *)
Lemma findSpecialCells_counterexample :
  holds twoStarts "S" (mkCell 0 0)
  /\ SpecReading.firstOccurrence "S" twoStarts = Some (mkCell 0 0)
  /\ start (findSpecialCells twoStarts) = Some (mkCell 1 1)
  /\ start (findSpecialCells twoStarts) <> SpecReading.firstOccurrence "S" twoStarts.
Proof.
  split; [reflexivity |]. split; [reflexivity |]. split; [reflexivity |].
  discriminate.
Qed.

(** ** Collision resolver: playfield bounds *)

(** C1.  Whenever [radius <= cols * cellSize - radius] and
    [radius <= rows * cellSize - radius], the position returned by
    [resolveCircleCollisions] has its [x] in
    [[radius, cols * cellSize - radius]] and its [y] in
    [[radius, rows * cellSize - radius]], whatever the input position. *)
Theorem resolveCircleCollisions_in_bounds
        (lvl : option Level) (ri : RenderInfo) (v : Vec)
        (nextX nextY rad cs : R) :
  rad <= IZR (cols ri) * cs - rad ->
  rad <= IZR (rows ri) * cs - rad ->
  let p := fst (resolveCircleCollisions lvl ri v nextX nextY rad cs) in
  rad <= vx p <= IZR (cols ri) * cs - rad
  /\ rad <= vy p <= IZR (rows ri) * cs - rad.
Proof.
  intros Hx Hy p. unfold p, resolveCircleCollisions. simpl.
  split; apply clamp_bounds; assumption.
Qed.

Lemma resolveCircleCollisions_in_bounds_witness :
  let p := fst (resolveCircleCollisions (Some (mkLevel (Some sampleGrid)))
                  (mkRenderInfo 2 2 10) (mkVec 40 (-25)) 17 (-2) 3.5 10) in
  3.5 <= vx p <= 2 * 10 - 3.5 /\ 3.5 <= vy p <= 2 * 10 - 3.5.
Proof.
  apply (resolveCircleCollisions_in_bounds
           (Some (mkLevel (Some sampleGrid))) (mkRenderInfo 2 2 10)
           (mkVec 40 (-25)) 17 (-2) 3.5 10); simpl; lra.
Defined.

(** ** Collision resolver: contact response *)

Lemma resolveCell_not_wall (lvl : option Level) (rad cs : R)
      (st : Resolve) (col row : Z) :
  isWall lvl col row = false -> resolveCell lvl rad cs st col row = st.
Proof. intro H. unfold resolveCell. rewrite H. reflexivity. Qed.

Lemma resolveCell_miss (lvl : option Level) (rad cs : R)
      (st : Resolve) (col row : Z) :
  ~ collides lvl rad cs (cx st) (cy st) col row ->
  resolveCell lvl rad cs st col row = st.
Proof.
  intro H. unfold resolveCell.
  destruct (isWall lvl col row) eqn:Hw; simpl; [| reflexivity].
  destruct (Rlt_dec _ _) as [Hlt | _]; [| reflexivity].
  exfalso. apply H. unfold collides, tileOffset. split; [exact Hw | exact Hlt].
Qed.

Lemma resolveCell_hit (lvl : option Level) (rad cs : R)
      (st : Resolve) (col row : Z) :
  collides lvl rad cs (cx st) (cy st) col row ->
  let n := tileNormal cs (cx st) (cy st) col row in
  let d := tileOffset cs (cx st) (cy st) col row in
  let penetration := rad - sqrt (Rmax (fst d * fst d + snd d * snd d) 0) + 0.01 in
  let vDotN := vx (bvel st) * fst n + vy (bvel st) * snd n in
  resolveCell lvl rad cs st col row =
  mkResolve (cx st + fst n * penetration) (cy st + snd n * penetration)
            (if Rlt_dec vDotN 0
             then mkVec (vx (bvel st) - vDotN * fst n) (vy (bvel st) - vDotN * snd n)
             else bvel st)
            true.
Proof.
  intros [Hw Hlt]. unfold resolveCell, tileNormal. rewrite Hw. simpl.
  unfold tileOffset in *. simpl in *.
  destruct (Rlt_dec _ _) as [_ | Hn]; [| contradiction].
  destruct (contactNormal _ _ _ _ _ _ _ _ _) as [nx ny]. reflexivity.
Qed.

Lemma contactNormal_unit (cx cy x0 y0 x1 y1 dx dy : R) :
  let n := contactNormal cx cy x0 y0 x1 y1 dx dy (sqrt (Rmax (dx * dx + dy * dy) 0)) in
  fst n * fst n + snd n * snd n = 1.
Proof.
  unfold contactNormal.
  assert (Hsq : 0 <= dx * dx + dy * dy) by nra.
  rewrite (Rmax_left _ 0 Hsq).
  destruct (Rlt_dec 0 (sqrt (dx * dx + dy * dy))) as [Hpos | Hzero].
  - simpl. pose proof (sqrt_sqrt _ Hsq) as Hs.
    set (d := sqrt (dx * dx + dy * dy)) in *.
    replace (dx / d * (dx / d) + dy / d * (dy / d))
      with ((dx * dx + dy * dy) / (d * d)) by (field; lra).
    rewrite <- Hs. field. lra.
  - repeat (destruct (Req_dec_T _ _)); simpl; lra.
Qed.

(** C3.  Sliding response of one contact.  When the tile [(col, row)]
    collides, its contact normal [n] is a unit vector; if [v . n < 0] the
    velocity becomes [v - (v . n) n], whose component along [n] is zero
    and whose component along the tangent [(-ny, nx)] is that of [v]; if
    [v . n >= 0] the velocity is left as it was. *)
Theorem sliding_response (lvl : option Level) (rad cs : R)
        (st : Resolve) (col row : Z) :
  collides lvl rad cs (cx st) (cy st) col row ->
  let n := tileNormal cs (cx st) (cy st) col row in
  let v := bvel st in
  let v' := bvel (resolveCell lvl rad cs st col row) in
  let vDotN := vx v * fst n + vy v * snd n in
  fst n * fst n + snd n * snd n = 1
  /\ (vDotN < 0 ->
      v' = mkVec (vx v - vDotN * fst n) (vy v - vDotN * snd n)
      /\ vx v' * fst n + vy v' * snd n = 0
      /\ vx v' * (- snd n) + vy v' * fst n = vx v * (- snd n) + vy v * fst n)
  /\ (0 <= vDotN -> v' = v).
Proof.
  intros Hc n v v' vDotN.
  assert (Hunit : fst n * fst n + snd n * snd n = 1).
  { unfold n, tileNormal.
    destruct (tileOffset cs (cx st) (cy st) col row) as [dx dy].
    apply contactNormal_unit. }
  assert (Hv' : v' = if Rlt_dec vDotN 0
                     then mkVec (vx v - vDotN * fst n) (vy v - vDotN * snd n)
                     else v).
  { unfold v'. rewrite (resolveCell_hit lvl rad cs st col row Hc). reflexivity. }
  split; [exact Hunit |]. split.
  - intro Hneg. destruct (Rlt_dec vDotN 0) as [_ | Hn]; [| contradiction].
    split; [exact Hv' |]. rewrite Hv'. simpl. unfold vDotN in *. split; nra.
  - intro Hpos. destruct (Rlt_dec vDotN 0) as [Hn | _]; [lra | exact Hv'].
Qed.

(** Evaluating [Math.min], [Math.max] and [clamp] on given numbers. *)
Ltac eval_minmax :=
  unfold clamp;
  repeat first [ rewrite Rmax_left by lra
               | rewrite Rmax_right by lra
               | rewrite Rmin_left by lra
               | rewrite Rmin_right by lra ].

Lemma sliding_response_witness :
  let st := mkResolve 8 5 (mkVec 40 0) false in
  let n := tileNormal 10 (cx st) (cy st) 1 0 in
  fst n * fst n + snd n * snd n = 1.
Proof.
  apply (sliding_response (Some (mkLevel (Some sampleGrid))) 3.5 10
                          (mkResolve 8 5 (mkVec 40 0) false) 1 0).
  split; [reflexivity |].
  unfold tileOffset; simpl. eval_minmax. lra.
Defined.

(** ** Collision resolver: stable positions *)

Section FoldStable.

(** A loop whose body either leaves the state alone or raises
    [collided], and never looks at the velocity to decide where the
    ball goes. *)
Variable A : Type.
Variable body : Resolve -> A -> Resolve.
Hypothesis body_noop : forall st a,
  collided (body st a) = false -> body st a = st.
Hypothesis body_position : forall st1 st2 a,
  cx st1 = cx st2 -> cy st1 = cy st2 -> collided st1 = collided st2 ->
  cx (body st1 a) = cx (body st2 a)
  /\ cy (body st1 a) = cy (body st2 a)
  /\ collided (body st1 a) = collided (body st2 a).

Lemma fold_noop (l : list A) : forall st,
  collided (fold_left body l st) = false -> fold_left body l st = st.
Proof.
  induction l as [| a tl IH]; intros st H; simpl in *; [reflexivity |].
  pose proof (IH _ H) as E. rewrite E in *. apply body_noop. exact H.
Qed.

Lemma fold_position (l : list A) : forall st1 st2,
  cx st1 = cx st2 -> cy st1 = cy st2 -> collided st1 = collided st2 ->
  cx (fold_left body l st1) = cx (fold_left body l st2)
  /\ cy (fold_left body l st1) = cy (fold_left body l st2)
  /\ collided (fold_left body l st1) = collided (fold_left body l st2).
Proof.
  induction l as [| a tl IH]; intros st1 st2 Hx Hy Hc; simpl.
  - repeat split; assumption.
  - destruct (body_position st1 st2 a Hx Hy Hc) as (Hx' & Hy' & Hc').
    apply IH; assumption.
Qed.

End FoldStable.

Lemma resolveCell_noop (lvl : option Level) (rad cs : R) (row : Z)
      (st : Resolve) (col : Z) :
  collided (resolveCell lvl rad cs st col row) = false ->
  resolveCell lvl rad cs st col row = st.
Proof.
  unfold resolveCell. destruct (isWall lvl col row); simpl; [| reflexivity].
  destruct (Rlt_dec _ _); [| reflexivity].
  destruct (contactNormal _ _ _ _ _ _ _ _ _). simpl. discriminate.
Qed.

Lemma resolveCell_position (lvl : option Level) (rad cs : R) (row : Z)
      (st1 st2 : Resolve) (col : Z) :
  cx st1 = cx st2 -> cy st1 = cy st2 -> collided st1 = collided st2 ->
  cx (resolveCell lvl rad cs st1 col row) = cx (resolveCell lvl rad cs st2 col row)
  /\ cy (resolveCell lvl rad cs st1 col row) = cy (resolveCell lvl rad cs st2 col row)
  /\ collided (resolveCell lvl rad cs st1 col row)
     = collided (resolveCell lvl rad cs st2 col row).
Proof.
  intros Hx Hy Hc. unfold resolveCell. rewrite Hx, Hy.
  destruct (isWall lvl col row); simpl; [| repeat split; assumption].
  destruct (Rlt_dec _ _); [| repeat split; assumption].
  destruct (contactNormal _ _ _ _ _ _ _ _ _). simpl. repeat split.
Qed.

Lemma resolvePass_noop (lvl : option Level) (ri : RenderInfo) (rad cs : R)
      (st : Resolve) :
  collided (resolvePass lvl ri rad cs st) = false ->
  resolvePass lvl ri rad cs st = mkResolve (cx st) (cy st) (bvel st) false.
Proof.
  unfold resolvePass. apply fold_noop.
  intros s row. apply fold_noop. intros s' col. apply resolveCell_noop.
Qed.

Lemma resolvePass_position (lvl : option Level) (ri : RenderInfo) (rad cs : R)
      (st1 st2 : Resolve) :
  cx st1 = cx st2 -> cy st1 = cy st2 ->
  cx (resolvePass lvl ri rad cs st1) = cx (resolvePass lvl ri rad cs st2)
  /\ cy (resolvePass lvl ri rad cs st1) = cy (resolvePass lvl ri rad cs st2)
  /\ collided (resolvePass lvl ri rad cs st1)
     = collided (resolvePass lvl ri rad cs st2).
Proof.
  intros Hx Hy. unfold resolvePass. rewrite Hx, Hy.
  apply fold_position; try reflexivity.
  intros s1 s2 row. apply fold_position.
  intros s1' s2' col. apply resolveCell_position.
Qed.

(** A loop that ends with [collided] cleared stands on a position where
    a further pass finds nothing. *)
Lemma resolveLoop_settled (lvl : option Level) (ri : RenderInfo) (rad cs : R)
      (n : nat) : forall st,
  (n = O -> collided st = true) ->
  collided (resolveLoop lvl ri rad cs n st) = false ->
  collided (resolvePass lvl ri rad cs (resolveLoop lvl ri rad cs n st)) = false.
Proof.
  induction n as [| k IH]; intros st H0 Hc; simpl in *.
  - rewrite (H0 eq_refl) in Hc. discriminate.
  - destruct (collided (resolvePass lvl ri rad cs st)) eqn:Hp.
    + apply IH; [intros _; exact Hp | exact Hc].
    + rewrite (resolvePass_noop lvl ri rad cs st Hp).
      destruct (resolvePass_position lvl ri rad cs
                  (mkResolve (cx st) (cy st) (bvel st) false) st eq_refl eq_refl)
        as (_ & _ & E).
      rewrite E. exact Hp.
Qed.

(** C2, as the code has it.  When the first call left its loop on a
    pass without a collision and its final clamp did not move the
    position, a second call on the returned position returns the same
    position and leaves the velocity as it finds it. *)
Theorem resolveCircleCollisions_stable_fixed_point
        (lvl : option Level) (ri : RenderInfo) (v v' : Vec)
        (nextX nextY rad cs : R) :
  let st := resolveLoop lvl ri rad cs maxIter (mkResolve nextX nextY v false) in
  collided st = false ->
  rad <= cx st <= IZR (cols ri) * cs - rad ->
  rad <= cy st <= IZR (rows ri) * cs - rad ->
  let out := fst (resolveCircleCollisions lvl ri v nextX nextY rad cs) in
  resolveCircleCollisions lvl ri v' (vx out) (vy out) rad cs = (out, v').
Proof.
  intros st Hc Hx Hy out.
  assert (Hout : out = mkVec (cx st) (cy st)).
  { unfold out, resolveCircleCollisions. simpl. fold st.
    rewrite !clamp_inside by assumption. reflexivity. }
  assert (Hpass : collided (resolvePass lvl ri rad cs st) = false).
  { apply resolveLoop_settled; [discriminate | exact Hc]. }
  rewrite Hout. simpl. unfold resolveCircleCollisions.
  assert (Hloop : resolveLoop lvl ri rad cs maxIter (mkResolve (cx st) (cy st) v' false)
                  = mkResolve (cx st) (cy st) v' false).
  { unfold maxIter. simpl.
    destruct (resolvePass_position lvl ri rad cs
                (mkResolve (cx st) (cy st) v' false) st eq_refl eq_refl)
      as (_ & _ & E).
    rewrite Hpass in E.
    rewrite (resolvePass_noop _ _ _ _ _ E). reflexivity. }
  rewrite Hloop. simpl. rewrite !clamp_inside by assumption. reflexivity.
Qed.

(** *** Running the resolver on given numbers *)

Lemma bandRows_at (ri : RenderInfo) (rad cs y : R) (lo hi : Z) :
  IZR lo <= (y - rad) / cs < IZR lo + 1 ->
  IZR hi <= (y + rad) / cs < IZR hi + 1 ->
  bandRows ri rad cs y = zrange (Z.max 0 lo) (Z.min (rows ri - 1) hi).
Proof.
  intros Hlo Hhi. unfold bandRows.
  rewrite (floor_unique _ lo Hlo), (floor_unique _ hi Hhi). reflexivity.
Qed.

Lemma bandCols_at (ri : RenderInfo) (rad cs x : R) (lo hi : Z) :
  IZR lo <= (x - rad) / cs < IZR lo + 1 ->
  IZR hi <= (x + rad) / cs < IZR hi + 1 ->
  bandCols ri rad cs x = zrange (Z.max 0 lo) (Z.min (cols ri - 1) hi).
Proof.
  intros Hlo Hhi. unfold bandCols.
  rewrite (floor_unique _ lo Hlo), (floor_unique _ hi Hhi). reflexivity.
Qed.

Lemma resolvePass_bands (lvl : option Level) (ri : RenderInfo) (rad cs : R)
      (st : Resolve) (rws cls : list Z) :
  bandRows ri rad cs (cy st) = rws ->
  bandCols ri rad cs (cx st) = cls ->
  resolvePass lvl ri rad cs st =
  fold_left
    (fun s row => fold_left (fun s' col => resolveCell lvl rad cs s' col row) cls s)
    rws (mkResolve (cx st) (cy st) (bvel st) false).
Proof. intros Hr Hc. unfold resolvePass. rewrite Hr, Hc. reflexivity. Qed.

Lemma fold_no_columns (f : Resolve -> Z -> Z -> Resolve) (rws : list Z) :
  forall st, fold_left (fun s row => fold_left (fun s' col => f s' col row) [] s) rws st = st.
Proof. induction rws as [| r tl IH]; intro st; simpl; [reflexivity | apply IH]. Qed.

(** The first call of the counterexample: the centre is left of the
    playfield, the band of columns is empty, the clamp brings it to
    [(3, 9)], inside the wall tile. *)
Lemma wallBelow_first_call (v : Vec) :
  resolveCircleCollisions wallBelow wallBelowInfo v (-4) 9 3 8 = (mkVec 3 9, v).
Proof.
  unfold resolveCircleCollisions, maxIter, resolveLoop.
  assert (Hpass : resolvePass wallBelow wallBelowInfo 3 8 (mkResolve (-4) 9 v false)
                  = mkResolve (-4) 9 v false).
  { rewrite (resolvePass_bands _ _ _ _ _ [0; 1]%Z []).
    - apply fold_no_columns.
    - simpl. rewrite (bandRows_at _ _ _ _ 0 1) by (simpl; lra). reflexivity.
    - simpl. rewrite (bandCols_at _ _ _ _ (-1) (-1)) by (simpl; lra). reflexivity. }
  rewrite Hpass. simpl. f_equal. f_equal; eval_minmax; lra.
Qed.

Lemma resolveCell_at (lvl : option Level) (rad cs : R) (st : Resolve)
      (col row : Z) (dx dy dist nx ny : R) :
  isWall lvl col row = true ->
  tileOffset cs (cx st) (cy st) col row = (dx, dy) ->
  dx * dx + dy * dy < rad * rad - 1e-6 ->
  sqrt (Rmax (dx * dx + dy * dy) 0) = dist ->
  contactNormal (cx st) (cy st) (IZR col * cs) (IZR row * cs)
                (IZR col * cs + cs) (IZR row * cs + cs) dx dy dist = (nx, ny) ->
  0 <= vx (bvel st) * nx + vy (bvel st) * ny ->
  resolveCell lvl rad cs st col row =
  mkResolve (cx st + nx * (rad - dist + 0.01)) (cy st + ny * (rad - dist + 0.01))
            (bvel st) true.
Proof.
  intros Hw Hoff Hlt Hdist Hn Hv.
  rewrite resolveCell_hit by (split; [exact Hw | rewrite Hoff; exact Hlt]).
  unfold tileNormal. rewrite Hoff. simpl. rewrite Hdist, Hn. simpl.
  destruct (Rlt_dec _ _) as [Hneg | _]; [lra | reflexivity].
Qed.

Lemma contactNormal_outside (cx cy x0 y0 x1 y1 dx dy dist : R) :
  0 < dist ->
  contactNormal cx cy x0 y0 x1 y1 dx dy dist = (dx / dist, dy / dist).
Proof.
  intro H. unfold contactNormal. destruct (Rlt_dec 0 dist); [reflexivity | contradiction].
Qed.

Lemma contactNormal_top (cx cy x0 y0 x1 y1 dx dy dist : R) :
  dist <= 0 ->
  Rabs (cy - y0) < Rabs (cx - x0) ->
  Rabs (cy - y0) < Rabs (x1 - cx) ->
  Rabs (cy - y0) <= Rabs (y1 - cy) ->
  contactNormal cx cy x0 y0 x1 y1 dx dy dist = (0, -1).
Proof.
  intros Hd Hl Hr Hb. unfold contactNormal.
  destruct (Rlt_dec 0 dist); [lra |].
  assert (Hmin : Rmin (Rmin (Rmin (Rabs (cx - x0)) (Rabs (x1 - cx))) (Rabs (cy - y0)))
                      (Rabs (y1 - cy)) = Rabs (cy - y0)).
  { rewrite (Rmin_right (Rmin _ _) (Rabs (cy - y0))).
    - apply Rmin_left. exact Hb.
    - apply Rmin_glb; lra. }
  rewrite Hmin.
  destruct (Req_dec_T _ _) as [E | _]; [lra |].
  destruct (Req_dec_T _ _) as [E | _]; [lra |].
  destruct (Req_dec_T _ _) as [_ | N]; [reflexivity | contradiction].
Qed.

(** The second call, pass by pass: the centre [(3, 9)] is inside the
    wall tile, one unit below its top edge; the first pass pushes it up
    by [3.01], the second by [1], the third finds nothing. *)
Lemma wallBelow_pass1 (c : bool) :
  resolvePass wallBelow wallBelowInfo 3 8 (mkResolve 3 9 (mkVec 0 0) c)
  = mkResolve 3 5.99 (mkVec 0 0) true.
Proof.
  rewrite (resolvePass_bands _ _ _ _ _ [0; 1]%Z [0]%Z).
  2:{ simpl. rewrite (bandRows_at _ _ _ _ 0 1) by (simpl; lra). reflexivity. }
  2:{ simpl. rewrite (bandCols_at _ _ _ _ 0 0) by (simpl; lra). reflexivity. }
  simpl fold_left.
  rewrite (resolveCell_not_wall _ _ _ _ 0 0) by reflexivity.
  rewrite (resolveCell_at _ _ _ _ 0 1 0 0 0 0 (-1)).
  - simpl. f_equal; lra.
  - reflexivity.
  - unfold tileOffset; simpl. eval_minmax. f_equal; lra.
  - lra.
  - replace (0 * 0 + 0 * 0) with 0 by lra. rewrite Rmax_left by lra. apply sqrt_0.
  - simpl. apply contactNormal_top.
    + lra.
    + rewrite !Rabs_pos_eq by lra. lra.
    + rewrite !Rabs_pos_eq by lra. lra.
    + rewrite !Rabs_pos_eq by lra. lra.
  - simpl. lra.
Qed.

Lemma wallBelow_pass2 (c : bool) :
  resolvePass wallBelow wallBelowInfo 3 8 (mkResolve 3 5.99 (mkVec 0 0) c)
  = mkResolve 3 4.99 (mkVec 0 0) true.
Proof.
  rewrite (resolvePass_bands _ _ _ _ _ [0; 1]%Z [0]%Z).
  2:{ simpl. rewrite (bandRows_at _ _ _ _ 0 1) by (simpl; lra). reflexivity. }
  2:{ simpl. rewrite (bandCols_at _ _ _ _ 0 0) by (simpl; lra). reflexivity. }
  simpl fold_left.
  rewrite (resolveCell_not_wall _ _ _ _ 0 0) by reflexivity.
  rewrite (resolveCell_at _ _ _ _ 0 1 0 (-2.01) 2.01 0 (-1)).
  - simpl. f_equal; lra.
  - reflexivity.
  - unfold tileOffset; simpl. eval_minmax. f_equal; lra.
  - lra.
  - replace (0 * 0 + -2.01 * -2.01) with (Rsqr 2.01) by (unfold Rsqr; lra).
    rewrite Rmax_left by (unfold Rsqr; lra). apply sqrt_Rsqr. lra.
  - rewrite contactNormal_outside by lra. f_equal; lra.
  - simpl. lra.
Qed.

Lemma wallBelow_pass3 (c : bool) :
  resolvePass wallBelow wallBelowInfo 3 8 (mkResolve 3 4.99 (mkVec 0 0) c)
  = mkResolve 3 4.99 (mkVec 0 0) false.
Proof.
  rewrite (resolvePass_bands _ _ _ _ _ [0]%Z [0]%Z).
  2:{ simpl. rewrite (bandRows_at _ _ _ _ 0 0) by (simpl; lra). reflexivity. }
  2:{ simpl. rewrite (bandCols_at _ _ _ _ 0 0) by (simpl; lra). reflexivity. }
  simpl fold_left.
  rewrite (resolveCell_not_wall _ _ _ _ 0 0) by reflexivity. reflexivity.
Qed.

Lemma wallBelow_second_call :
  resolveCircleCollisions wallBelow wallBelowInfo (mkVec 0 0) 3 9 3 8
  = (mkVec 3 4.99, mkVec 0 0).
Proof.
  unfold resolveCircleCollisions, maxIter, resolveLoop.
  rewrite wallBelow_pass1. simpl collided. cbv iota.
  rewrite wallBelow_pass2. simpl collided. cbv iota.
  rewrite wallBelow_pass3. simpl. f_equal. f_equal; eval_minmax; lra.
Qed.

Lemma wallBelow_settled_loop :
  resolveLoop wallBelow wallBelowInfo 3 8 maxIter (mkResolve 3 4.99 (mkVec 0 0) false)
  = mkResolve 3 4.99 (mkVec 0 0) false.
Proof. unfold maxIter. simpl. rewrite wallBelow_pass3. reflexivity. Qed.

Lemma resolveCircleCollisions_stable_fixed_point_witness :
  let out := fst (resolveCircleCollisions wallBelow wallBelowInfo (mkVec 0 0) 3 4.99 3 8) in
  resolveCircleCollisions wallBelow wallBelowInfo (mkVec 0 0) (vx out) (vy out) 3 8
  = (out, mkVec 0 0).
Proof.
  pose proof (resolveCircleCollisions_stable_fixed_point
                wallBelow wallBelowInfo (mkVec 0 0) (mkVec 0 0) 3 4.99 3 8) as H.
  cbv zeta in H. rewrite wallBelow_settled_loop in H. simpl in H.
  apply H; [reflexivity | lra | lra].
Defined.

(** C2 fails as stated.  On the playfield [wallBelow] with radius [3]
    and cell size [8], the call at [(-4, 9)] returns [(3, 9)]; the call
    at [(3, 9)] returns [(3, 4.99)]. *)
Lemma resolveCircleCollisions_counterexample :
  let first := resolveCircleCollisions wallBelow wallBelowInfo (mkVec 0 0) (-4) 9 3 8 in
  let second := resolveCircleCollisions wallBelow wallBelowInfo (snd first)
                                        (vx (fst first)) (vy (fst first)) 3 8 in
  fst first = mkVec 3 9
  /\ fst second = mkVec 3 4.99
  /\ fst second <> fst first.
Proof.
  cbv zeta. rewrite wallBelow_first_call. cbn [fst snd vx vy].
  rewrite wallBelow_second_call. cbn [fst snd].
  split; [reflexivity |]. split; [reflexivity |].
  intro E. injection E as E. lra.
Qed.

(** ** Goal transition *)




Lemma stepPhysics_reaches (now dt : R) (w : World) (ri : RenderInfo) (g : Cell) :
  renderInfo w = Some ri -> goalCell w = Some g -> goalReached w = false ->
  inGoalCell (cellSize ri)
             (pos (integrate (currentLevel w) ri (sensorState w) dt (ball w))) g = true ->
  let w' := stepPhysics now dt w in
  goalReached w' = true
  /\ animationPaused w' = true
  /\ running (timerState w') = false
  /\ vel (ball w') = mkVec 0 0
  /\ exists ms,
      effects w' = (effects w ++ match animationId w with
                                 | Some id => [CancelAnimationFrame id]
                                 | None => []
                                 end)
                   ++ [SaveCompletionTime (requestedLevel w) ms; ShowWinModal ms].
Proof.
  intros Hri Hg H0 Hin w'. unfold w', stepPhysics.
  rewrite Hri. simpl. rewrite Hg, H0. simpl. rewrite Hin. simpl.
  split; [reflexivity |]. split; [reflexivity |]. split.
  - unfold stopTimer. destruct (running (timerState w)) eqn:E; simpl;
      rewrite ?E; simpl; rewrite ?E; reflexivity.
  - split; [reflexivity |]. eexists. reflexivity.
Qed.




(** * Further properties *)

(** ** Sub-step travel *)

Lemma ceil_ge (x : R) : x <= IZR (ceil x).
Proof.
  unfold ceil, floor. rewrite opp_IZR.
  destruct (base_Int_part (- x)) as [H _]. lra.
Qed.

Lemma steps_covers (speed dt cs : R) :
  0 <= speed * dt ->
  speed * dt <= IZR (steps speed dt cs) * Rmax 1 (cs * 0.45).
Proof.
  intro Hnn. unfold steps.
  set (M := Rmax 1 (cs * 0.45)).
  assert (HM : 1 <= M) by apply Rmax_l.
  pose proof (ceil_ge (speed * dt / M)) as Hc.
  assert (Hle : IZR (ceil (speed * dt / M)) <= IZR (Z.max 1 (ceil (speed * dt / M))))
    by (apply IZR_le; apply Z.le_max_r).
  assert (Hq : speed * dt = speed * dt / M * M) by (field; lra).
  rewrite Hq at 1. apply Rmult_le_compat_r; lra.
Qed.

(** X1.  No sub-step moves the tentative position by more than
    [max(1, 0.45 * cellSize)]: with [dt >= 0], the displacement
    [(vx * stepDt, vy * stepDt)] has squared length at most the square of
    that bound. *)
Theorem substep_travel_bound (v : Vec) (dt cs : R) :
  0 <= dt ->
  let stepDt := dt / IZR (steps (hypot (vx v) (vy v)) dt cs) in
  (vx v * stepDt) * (vx v * stepDt) + (vy v * stepDt) * (vy v * stepDt)
  <= Rmax 1 (cs * 0.45) * Rmax 1 (cs * 0.45).
Proof.
  intros Hdt stepDt.
  set (speed := hypot (vx v) (vy v)).
  assert (Hsp : 0 <= speed) by apply sqrt_pos.
  assert (Hsq : speed * speed = vx v * vx v + vy v * vy v).
  { unfold speed, hypot. apply sqrt_sqrt. nra. }
  set (N := IZR (steps speed dt cs)).
  assert (HN : 1 <= N) by (apply IZR_le; apply steps_positive).
  set (M := Rmax 1 (cs * 0.45)).
  assert (HM : 1 <= M) by apply Rmax_l.
  assert (Hcov : speed * dt <= N * M) by (apply steps_covers; nra).
  assert (Hstep : 0 <= speed * stepDt <= M).
  { unfold stepDt. fold speed N. split.
    - apply Rmult_le_pos; [exact Hsp |]. apply Rmult_le_pos; [exact Hdt |].
      left. apply Rinv_0_lt_compat. lra.
    - replace (speed * (dt / N)) with (speed * dt / N) by (field; lra).
      apply Rmult_le_reg_r with N; [lra |].
      replace (speed * dt / N * N) with (speed * dt) by (field; lra). lra. }
  replace (vx v * stepDt * (vx v * stepDt) + vy v * stepDt * (vy v * stepDt))
    with ((speed * speed) * (stepDt * stepDt)) by (rewrite Hsq; ring).
  nra.
Qed.

Lemma substep_travel_bound_witness :
  let stepDt := 0.032 / IZR (steps (hypot 300 400) 0.032 10) in
  (300 * stepDt) * (300 * stepDt) + (400 * stepDt) * (400 * stepDt)
  <= Rmax 1 (10 * 0.45) * Rmax 1 (10 * 0.45).
Proof.
  apply (substep_travel_bound (mkVec 300 400) 0.032 10). lra.
Defined.

(** ** The resolver never speeds the ball up *)

Lemma resolveCell_speed (lvl : option Level) (rad cs : R) (st : Resolve)
      (col row : Z) :
  speedSq (bvel (resolveCell lvl rad cs st col row)) <= speedSq (bvel st).
Proof.
  destruct (isWall lvl col row) eqn:Hw.
  2:{ rewrite resolveCell_not_wall by exact Hw. lra. }
  unfold resolveCell. rewrite Hw. simpl.
  destruct (Rlt_dec _ _) as [Hlt | _]; [| lra].
  pose proof (contactNormal_unit (cx st) (cy st) (IZR col * cs) (IZR row * cs)
                (IZR col * cs + cs) (IZR row * cs + cs)
                (cx st - clamp (cx st) (IZR col * cs) (IZR col * cs + cs))
                (cy st - clamp (cy st) (IZR row * cs) (IZR row * cs + cs))) as Hunit.
  cbv zeta in Hunit.
  destruct (contactNormal _ _ _ _ _ _ _ _ _) as [nx ny]. simpl in *.
  destruct (Rlt_dec _ _) as [Hneg | _]; [| lra].
  unfold speedSq. simpl.
  set (d := vx (bvel st) * nx + vy (bvel st) * ny) in *.
  replace ((vx (bvel st) - d * nx) * (vx (bvel st) - d * nx)
           + (vy (bvel st) - d * ny) * (vy (bvel st) - d * ny))
    with (vx (bvel st) * vx (bvel st) + vy (bvel st) * vy (bvel st)
          - 2 * d * d + d * d * (nx * nx + ny * ny)) by (unfold d; ring).
  rewrite Hunit. nra.
Qed.

Lemma fold_speed (A : Type) (body : Resolve -> A -> Resolve) :
  (forall st a, speedSq (bvel (body st a)) <= speedSq (bvel st)) ->
  forall (l : list A) st,
    speedSq (bvel (fold_left body l st)) <= speedSq (bvel st).
Proof.
  intros Hbody l. induction l as [| a tl IH]; intro st; simpl; [lra |].
  eapply Rle_trans; [apply IH | apply Hbody].
Qed.

Lemma resolvePass_speed (lvl : option Level) (ri : RenderInfo) (rad cs : R)
      (st : Resolve) :
  speedSq (bvel (resolvePass lvl ri rad cs st)) <= speedSq (bvel st).
Proof.
  unfold resolvePass.
  eapply Rle_trans.
  - apply fold_speed. intros s row. apply fold_speed.
    intros s' col. apply resolveCell_speed.
  - simpl. lra.
Qed.

Lemma resolveLoop_speed (lvl : option Level) (ri : RenderInfo) (rad cs : R)
      (n : nat) : forall st,
  speedSq (bvel (resolveLoop lvl ri rad cs n st)) <= speedSq (bvel st).
Proof.
  induction n as [| k IH]; intro st; simpl; [lra |].
  pose proof (resolvePass_speed lvl ri rad cs st) as Hp.
  destruct (collided (resolvePass lvl ri rad cs st)); [| exact Hp].
  eapply Rle_trans; [apply IH | exact Hp].
Qed.

Lemma resolveCircleCollisions_speed
      (lvl : option Level) (ri : RenderInfo) (v : Vec)
      (nextX nextY rad cs : R) :
  speedSq (snd (resolveCircleCollisions lvl ri v nextX nextY rad cs)) <= speedSq v.
Proof.
  unfold resolveCircleCollisions. simpl.
  apply (resolveLoop_speed lvl ri rad cs maxIter (mkResolve nextX nextY v false)).
Qed.

(** ** Pushing out of a tile *)

Lemma outside_offset_kept (c lo hi n pen : R) :
  lo <= hi -> 0 <= pen ->
  (0 < c - clamp c lo hi -> 0 <= n) ->
  (c - clamp c lo hi < 0 -> n <= 0) ->
  (c - clamp c lo hi = 0 -> n = 0) ->
  (c + n * pen) - clamp (c + n * pen) lo hi = (c - clamp c lo hi) + n * pen.
Proof.
  intros Hlh Hpen Hpos Hneg Hzero. unfold clamp in *.
  destruct (Rle_dec c lo) as [Hc1 | Hc1].
  - rewrite (Rmax_left lo c) in * by lra. rewrite (Rmin_right hi lo) in * by lra.
    destruct (Req_dec c lo) as [E | N].
    + rewrite Hzero by lra. replace (c + 0 * pen) with c by ring.
      rewrite (Rmax_left lo c) by lra. rewrite (Rmin_right hi lo) by lra. ring.
    + assert (Hn : n <= 0) by (apply Hneg; lra).
      assert (Hm : n * pen <= 0) by nra.
      rewrite (Rmax_left lo (c + n * pen)) by lra.
      rewrite (Rmin_right hi lo) by lra. ring.
  - rewrite (Rmax_right lo c) in * by lra.
    destruct (Rle_dec c hi) as [Hc2 | Hc2].
    + rewrite (Rmin_right hi c) in * by lra.
      rewrite Hzero by lra. replace (c + 0 * pen) with c by ring.
      rewrite (Rmax_right lo c) by lra. rewrite (Rmin_right hi c) by lra. ring.
    + rewrite (Rmin_left hi c) in * by lra.
      assert (Hn : 0 <= n) by (apply Hpos; lra).
      assert (Hm : 0 <= n * pen) by nra.
      rewrite (Rmax_right lo (c + n * pen)) by lra.
      rewrite (Rmin_left hi (c + n * pen)) by lra. ring.
Qed.

(** X2.  Penetration correction.  When the centre is outside a
    colliding wall tile (at a positive distance from its closest point),
    with [cellSize >= 0] and [radius >= 0], the push of the inner loop
    leaves the centre at distance exactly [radius + 0.01] from the tile,
    so that tile no longer collides. *)
Theorem push_out_clears_tile (lvl : option Level) (rad cs : R)
        (st : Resolve) (col row : Z) :
  0 <= cs -> 0 <= rad ->
  collides lvl rad cs (cx st) (cy st) col row ->
  let d := tileOffset cs (cx st) (cy st) col row in
  0 < fst d * fst d + snd d * snd d ->
  let st' := resolveCell lvl rad cs st col row in
  let d' := tileOffset cs (cx st') (cy st') col row in
  fst d' * fst d' + snd d' * snd d' = (rad + 0.01) * (rad + 0.01)
  /\ ~ collides lvl rad cs (cx st') (cy st') col row.
Proof.
  intros Hcs Hrad Hc d Hout st' d'.
  assert (Hst' : st' = resolveCell lvl rad cs st col row) by reflexivity.
  rewrite (resolveCell_hit lvl rad cs st col row Hc) in Hst'. cbv zeta in Hst'.
  destruct Hc as [Hw Hlt].
  unfold tileNormal in Hst'. fold d in Hst', Hlt.
  destruct d as [dx dy] eqn:Hd. simpl in *.
  set (distSq := dx * dx + dy * dy) in *.
  rewrite (Rmax_left distSq 0) in Hst' by lra.
  set (dist := sqrt distSq) in *.
  assert (Hdist : 0 < dist) by (apply sqrt_lt_R0; exact Hout).
  assert (Hdd : dist * dist = distSq) by (apply sqrt_sqrt; lra).
  assert (Hlt' : dist < rad) by nra.
  rewrite contactNormal_outside in Hst' by exact Hdist. simpl in Hst'.
  set (pen := rad - dist + 0.01) in *.
  assert (Hpen : 0 <= pen) by (unfold pen; lra).
  assert (Hinv : 0 < / dist) by (apply Rinv_0_lt_compat; exact Hdist).
  unfold tileOffset in Hd. injection Hd as Hdx Hdy.
  assert (Hx : cx st' - clamp (cx st') (IZR col * cs) (IZR col * cs + cs)
               = dx + dx / dist * pen).
  { rewrite Hst'. simpl. rewrite <- Hdx.
    apply outside_offset_kept; try lra; rewrite Hdx; intro H.
    - unfold Rdiv. nra.
    - unfold Rdiv. nra.
    - rewrite H. unfold Rdiv. ring. }
  assert (Hy : cy st' - clamp (cy st') (IZR row * cs) (IZR row * cs + cs)
               = dy + dy / dist * pen).
  { rewrite Hst'. simpl. rewrite <- Hdy.
    apply outside_offset_kept; try lra; rewrite Hdy; intro H.
    - unfold Rdiv. nra.
    - unfold Rdiv. nra.
    - rewrite H. unfold Rdiv. ring. }
  assert (Hsum : fst d' * fst d' + snd d' * snd d' = (rad + 0.01) * (rad + 0.01)).
  { unfold d', tileOffset. simpl. rewrite Hx, Hy.
    replace ((dx + dx / dist * pen) * (dx + dx / dist * pen)
             + (dy + dy / dist * pen) * (dy + dy / dist * pen))
      with (distSq * ((dist + pen) * (dist + pen)) / (dist * dist))
      by (unfold distSq; field; lra).
    rewrite Hdd. unfold pen. field. lra. }
  split; [exact Hsum |].
  intros [_ Hc']. fold d' in Hc'. destruct d' as [dx' dy']. simpl in *. nra.
Qed.

Lemma push_out_clears_tile_witness :
  let st := mkResolve 8 5 (mkVec 40 0) false in
  let st' := resolveCell (Some (mkLevel (Some sampleGrid))) 3.5 10 st 1 0 in
  ~ collides (Some (mkLevel (Some sampleGrid))) 3.5 10 (cx st') (cy st') 1 0.
Proof.
  apply (push_out_clears_tile (Some (mkLevel (Some sampleGrid))) 3.5 10
                              (mkResolve 8 5 (mkVec 40 0) false) 1 0).
  - lra.
  - lra.
  - split; [reflexivity |]. unfold tileOffset; simpl. eval_minmax. lra.
  - unfold tileOffset; simpl. eval_minmax. lra.
Defined.

(** ** Terminal speed *)

Lemma damping_factor (dt : R) :
  0 <= dt ->
  0 < exp (- friction * dt) /\ exp (- friction * dt) * (1 + friction * dt) <= 1.
Proof.
  intro Hdt. split; [apply exp_pos |].
  replace (- friction * dt) with (- (friction * dt)) by ring.
  rewrite exp_Ropp.
  pose proof (exp_ineq1_le (friction * dt)) as H1.
  pose proof (exp_pos (friction * dt)) as H2.
  apply Rmult_le_reg_l with (exp (friction * dt)); [exact H2 |].
  rewrite <- Rmult_assoc. rewrite Rinv_r by lra. lra.
Qed.

Lemma dot_bound (v a : Vec) (S A : R) :
  0 <= S -> 0 <= A -> speedSq v <= S * S -> speedSq a <= A * A ->
  vx v * vx a + vy v * vy a <= S * A.
Proof.
  unfold speedSq. intros HS HA Hv Ha.
  assert (Hcs : (vx v * vx a + vy v * vy a) * (vx v * vx a + vy v * vy a)
                <= (S * A) * (S * A)).
  { apply Rle_trans with ((vx v * vx v + vy v * vy v) * (vx a * vx a + vy a * vy a)).
    - pose proof (Rle_0_sqr (vx v * vy a - vy v * vx a)) as Hcross.
      unfold Rsqr in Hcross.
      replace ((vx v * vx v + vy v * vy v) * (vx a * vx a + vy a * vy a))
        with ((vx v * vx a + vy v * vy a) * (vx v * vx a + vy v * vy a)
              + (vx v * vy a - vy v * vx a) * (vx v * vy a - vy v * vx a)) by ring.
      lra.
    - replace (S * A * (S * A)) with ((S * S) * (A * A)) by ring.
      apply Rmult_le_compat; nra. }
  assert (0 <= S * A) by nra.
  nra.
Qed.

Lemma dampedVelocity_speed (s : SensorState) (dt A : R) (v : Vec) :
  0 <= dt -> 0 <= A ->
  speedSq (accel s) <= A * A ->
  speedSq v <= (A / friction) * (A / friction) ->
  speedSq (dampedVelocity s dt v) <= (A / friction) * (A / friction).
Proof.
  intros Hdt HA Hacc Hv.
  set (S := A / friction) in *.
  assert (Hf : friction = 1.8) by reflexivity.
  assert (HS : 0 <= S) by (unfold S, friction; apply Rmult_le_pos; lra).
  assert (HAS : A = friction * S) by (unfold S, friction; field; lra).
  destruct (damping_factor dt Hdt) as [HE0 HE1].
  set (E := exp (- friction * dt)) in *.
  assert (Hbound : forall a : Vec, speedSq a <= A * A ->
            ((vx v + vx a * dt) * E) * ((vx v + vx a * dt) * E)
            + ((vy v + vy a * dt) * E) * ((vy v + vy a * dt) * E) <= S * S).
  { intros a Ha.
    pose proof (dot_bound v a S A HS HA Hv Ha) as Hdot.
    unfold speedSq in Hv, Ha.
    assert (Hsum : (vx v + vx a * dt) * (vx v + vx a * dt)
                   + (vy v + vy a * dt) * (vy v + vy a * dt)
                   <= (S + A * dt) * (S + A * dt)) by nra.
    assert (HES : 0 <= E * (S + A * dt) <= S).
    { rewrite HAS. replace (E * (S + friction * S * dt))
        with (S * (E * (1 + friction * dt))) by ring.
      assert (Hfd : 0 <= friction * dt) by (unfold friction; nra).
      set (e1 := E * (1 + friction * dt)) in *.
      assert (He1 : 0 <= e1) by (unfold e1; apply Rmult_le_pos; lra).
      split; [apply Rmult_le_pos; assumption |].
      replace S with (S * 1) at 2 by ring.
      apply Rmult_le_compat_l; assumption. }
    replace ((vx v + vx a * dt) * E * ((vx v + vx a * dt) * E)
             + (vy v + vy a * dt) * E * ((vy v + vy a * dt) * E))
      with (E * E * ((vx v + vx a * dt) * (vx v + vx a * dt)
                     + (vy v + vy a * dt) * (vy v + vy a * dt))) by ring.
    apply Rle_trans with (E * E * ((S + A * dt) * (S + A * dt))).
    - apply Rmult_le_compat_l; [nra | exact Hsum].
    - replace (E * E * ((S + A * dt) * (S + A * dt)))
        with ((E * (S + A * dt)) * (E * (S + A * dt))) by ring.
      nra. }
  unfold dampedVelocity, computeAcceleration.
  destruct (enabled s && available s).
  - unfold speedSq at 1. simpl. fold E. apply (Hbound (accel s) Hacc).
  - unfold speedSq at 1. simpl. fold E.
    apply (Hbound (mkVec 0 0)). unfold speedSq. simpl. nra.
Qed.

Lemma subStep_speed (lvl : option Level) (ri : RenderInfo)
      (rad cs stepDt : R) (b : Ball) :
  speedSq (vel (subStep lvl ri rad cs stepDt b)) <= speedSq (vel b).
Proof.
  unfold subStep.
  pose proof (resolveCircleCollisions_speed lvl ri (vel b)
                (vx (pos b) + vx (vel b) * stepDt)
                (vy (pos b) + vy (vel b) * stepDt) rad cs) as H.
  destruct (resolveCircleCollisions _ _ _ _ _ _ _) as [p v']. exact H.
Qed.

Lemma iter_subStep_speed (lvl : option Level) (ri : RenderInfo)
      (rad cs stepDt : R) (n : nat) (b : Ball) :
  speedSq (vel (Nat.iter n (subStep lvl ri rad cs stepDt) b)) <= speedSq (vel b).
Proof.
  induction n as [| k IH]; simpl; [lra |].
  eapply Rle_trans; [apply subStep_speed | exact IH].
Qed.

Lemma integrate_speed (lvl : option Level) (ri : RenderInfo) (s : SensorState)
      (dt : R) (b : Ball) :
  speedSq (vel (integrate lvl ri s dt b)) <= speedSq (dampedVelocity s dt (vel b)).
Proof. unfold integrate. apply iter_subStep_speed. Qed.

(** X3.  Collision resolution never speeds the ball up: the velocity
    left by [resolveCircleCollisions] is no longer than the one it found,
    and after the whole sub-step loop of a frame the speed is no larger
    than it was right after the damped velocity update, on every grid and
    from every position. *)
Theorem resolver_never_accelerates
        (lvl : option Level) (ri : RenderInfo) (s : SensorState)
        (dt : R) (b : Ball) (nextX nextY rad cs : R) (v : Vec) :
  speedSq (snd (resolveCircleCollisions lvl ri v nextX nextY rad cs)) <= speedSq v
  /\ speedSq (vel (integrate lvl ri s dt b)) <= speedSq (dampedVelocity s dt (vel b)).
Proof.
  split; [apply resolveCircleCollisions_speed | apply integrate_speed].
Qed.

Lemma stepPhysics_sensor (now dt : R) (w : World) :
  sensorState (stepPhysics now dt w) = sensorState w.
Proof.
  unfold stepPhysics. destruct (renderInfo w); [| reflexivity]. simpl.
  destruct (goalCell w); simpl; [| reflexivity].
  destruct (goalReached w); simpl; [reflexivity |].
  destruct (inGoalCell _ _ _); reflexivity.
Qed.

Lemma stepPhysics_speed (now dt A : R) (w : World) :
  0 <= dt -> 0 <= A ->
  speedSq (accel (sensorState w)) <= A * A ->
  speedSq (vel (ball w)) <= (A / friction) * (A / friction) ->
  speedSq (vel (ball (stepPhysics now dt w))) <= (A / friction) * (A / friction).
Proof.
  intros Hdt HA Hacc Hv.
  assert (Hint : forall ri, speedSq (vel (integrate (currentLevel w) ri (sensorState w) dt (ball w)))
                            <= (A / friction) * (A / friction)).
  { intro ri. eapply Rle_trans; [apply integrate_speed |].
    apply dampedVelocity_speed; assumption. }
  assert (Hzero : speedSq (mkVec 0 0) <= (A / friction) * (A / friction)).
  { unfold speedSq. simpl. nra. }
  unfold stepPhysics. destruct (renderInfo w) as [ri |]; [| exact Hv]. simpl.
  destruct (goalCell w); simpl; [| apply Hint].
  destruct (goalReached w); simpl; [apply Hint |].
  destruct (inGoalCell _ _ _); simpl; [exact Hzero | apply Hint].
Qed.

(** X4.  Terminal speed.  If the sensor acceleration has length at most
    [A] and the ball's speed is at most [A / 1.8] (as it is at rest),
    then after any run of frames with non-negative time deltas the speed
    is still at most [A / 1.8]: damping balances the acceleration and
    the resolver never adds speed. *)
Theorem terminal_speed (A : R) (frames : list (R * R)) : forall (w : World),
  0 <= A ->
  Forall (fun f => 0 <= snd f) frames ->
  speedSq (accel (sensorState w)) <= A * A ->
  speedSq (vel (ball w)) <= (A / friction) * (A / friction) ->
  speedSq (vel (ball (run frames w))) <= (A / friction) * (A / friction).
Proof.
  induction frames as [| [now dt] rest IH]; intros w HA Hdts Hacc Hv; [exact Hv |].
  unfold run in *. simpl.
  apply IH.
  - exact HA.
  - exact (Forall_inv_tail Hdts).
  - rewrite stepPhysics_sensor. exact Hacc.
  - apply stepPhysics_speed; try assumption. exact (Forall_inv Hdts).
Qed.

Lemma terminal_speed_witness :
  speedSq (vel (ball (run [(0, 0.016); (16, 0.016)] completedWorld)))
  <= (900 / friction) * (900 / friction).
Proof.
  apply (terminal_speed 900 [(0, 0.016); (16, 0.016)] completedWorld).
  - lra.
  - repeat constructor; simpl; lra.
  - unfold speedSq; simpl; lra.
  - unfold speedSq, friction; simpl. lra.
Defined.

(** ** Session timer: stretches of play *)

Lemma playStretches_paused (l : list (R * R)) : forall t,
  running t = false ->
  running (playStretches l t) = false
  /\ elapsedMs (playStretches l t) = elapsedMs t + stretchesLength l.
Proof.
  induction l as [| [a b] rest IH]; intros t Hr; simpl.
  - split; [exact Hr | lra].
  - unfold playStretches in *. simpl.
    assert (Hstep : stopTimer b (startTimer a t)
                    = mkTimer a (elapsedMs t + (b - a)) false true).
    { unfold startTimer. rewrite Hr. reflexivity. }
    rewrite Hstep. destruct (IH (mkTimer a (elapsedMs t + (b - a)) false true) eq_refl)
      as [Hrun Hel].
    split; [exact Hrun |]. rewrite Hel. simpl. lra.
Qed.

(** X5.  The timer counts play time only.  Starting from a timer that
    is not running, after any number of start/stop stretches the reading
    of [getElapsedMs], taken at any later time, is the time accumulated
    before plus the total length of the stretches; the time between a
    stop and the next start is not counted. *)
Theorem timer_counts_stretches (l : list (R * R)) (t : TimerState) (later : R) :
  running t = false ->
  getElapsedMs later (playStretches l t) = elapsedMs t + stretchesLength l.
Proof.
  intro Hr. destruct (playStretches_paused l t Hr) as [Hrun Hel].
  unfold getElapsedMs. rewrite Hrun. simpl. exact Hel.
Qed.

Lemma timer_counts_stretches_witness :
  getElapsedMs 99 (playStretches [(1, 4); (10, 12)] timerState0) = 0 + ((4 - 1) + ((12 - 10) + 0)).
Proof.
  apply (timer_counts_stretches [(1, 4); (10, 12)] timerState0 99). reflexivity.
Defined.

Lemma timer_stop_freezes_aux (t : TimerState) (now later : R) :
  getElapsedMs later (stopTimer now t) = getElapsedMs now t
  /\ stopTimer later (stopTimer now t) = stopTimer now t.
Proof.
  unfold getElapsedMs, stopTimer.
  destruct (running t) eqn:Hr; simpl; rewrite ?Hr; simpl; split; reflexivity.
Qed.

(** Stopping freezes the reading: whatever the state of the timer,
    [getElapsedMs] at any later time after [stopTimer] at [now] is what
    [getElapsedMs] gave at [now]; a second [stopTimer] changes nothing;
    and [startTimer] on the timer it has just started keeps the first
    origin. *)
Lemma timer_stop_freezes (t : TimerState) (now later : R) :
  getElapsedMs later (stopTimer now t) = getElapsedMs now t
  /\ stopTimer later (stopTimer now t) = stopTimer now t
  /\ startTimer later (startTimer now t) = startTimer now t.
Proof.
  destruct (timer_stop_freezes_aux t now later) as [H1 H2].
  split; [exact H1 |]. split; [exact H2 |].
  unfold startTimer. destruct (running t) eqn:Hr; simpl; rewrite ?Hr; reflexivity.
Qed.

(** ** Pausing *)

(** X6.  [pauseGame] stops the timer with the reading it had, zeroes
    the velocity, clears the scheduled frame, and keeps the position and
    the goal flag; pausing a paused game changes nothing. *)
Theorem pauseGame_freezes (now later : R) (w : World) :
  let w' := pauseGame now w in
  animationPaused w' = true
  /\ animationId w' = None
  /\ running (timerState w') = false
  /\ getElapsedMs later (timerState w') = getElapsedMs now (timerState w)
  /\ vel (ball w') = mkVec 0 0
  /\ pos (ball w') = pos (ball w)
  /\ goalReached w' = goalReached w
  /\ pauseGame later w' = w'.
Proof.
  intro w'. unfold w', pauseGame. simpl.
  destruct (timer_stop_freezes_aux (timerState w) now later) as (Hfreeze & Hstop).
  split; [reflexivity |]. split; [reflexivity |]. split.
  { unfold stopTimer. destruct (running (timerState w)) eqn:Hr; simpl; rewrite ?Hr; reflexivity. }
  split; [exact Hfreeze |]. split; [reflexivity |]. split; [reflexivity |].
  split; [reflexivity |].
  rewrite Hstop. rewrite app_nil_r. reflexivity.
Qed.

(** ** Completion *)

Lemma getElapsedMs_stopped_twice (now : R) (t : TimerState) :
  getElapsedMs now (stopTimer now (stopTimer now t)) = getElapsedMs now t.
Proof.
  destruct (timer_stop_freezes_aux t now now) as (H1 & H2).
  rewrite H2. exact H1.
Qed.

(** X7.  The time handed to the score store is the play time elapsed
    at the completing frame.  When a step starts with the goal not yet
    reached and ends with the centre in the goal tile, it appends, after
    the cancellation of a scheduled frame if there was one, exactly one
    [saveCompletionTime(requestedLevel, ms)] and one win-modal display,
    both with [ms] the value [getElapsedMs] had at the clock reading of
    the step. *)
Theorem completion_reports_elapsed (now dt : R) (w : World)
        (ri : RenderInfo) (g : Cell) :
  renderInfo w = Some ri -> goalCell w = Some g -> goalReached w = false ->
  inGoalCell (cellSize ri)
             (pos (integrate (currentLevel w) ri (sensorState w) dt (ball w))) g = true ->
  effects (stepPhysics now dt w) =
  (effects w ++ match animationId w with
                | Some id => [CancelAnimationFrame id]
                | None => []
                end)
  ++ [SaveCompletionTime (requestedLevel w) (getElapsedMs now (timerState w));
      ShowWinModal (getElapsedMs now (timerState w))].
Proof.
  intros Hri Hg H0 Hin. unfold stepPhysics.
  rewrite Hri. simpl. rewrite Hg, H0. simpl. rewrite Hin.
  unfold showWinModal, pauseGame. simpl.
  rewrite getElapsedMs_stopped_twice. reflexivity.
Qed.

(** ** A level without a goal *)

Lemma stepPhysics_goalCell (now dt : R) (w : World) :
  goalCell (stepPhysics now dt w) = goalCell w.
Proof.
  unfold stepPhysics. destruct (renderInfo w); [| reflexivity]. simpl.
  destruct (goalCell w) eqn:Hg; simpl; [| exact Hg].
  destruct (goalReached w); simpl; [exact Hg |].
  destruct (inGoalCell _ _ _); simpl; exact Hg.
Qed.

Lemma stepPhysics_no_goal (now dt : R) (w : World) :
  goalCell w = None ->
  goalReached (stepPhysics now dt w) = goalReached w
  /\ effects (stepPhysics now dt w) = effects w
  /\ timerState (stepPhysics now dt w) = timerState w
  /\ animationPaused (stepPhysics now dt w) = animationPaused w.
Proof.
  intro Hg. unfold stepPhysics. destruct (renderInfo w); [| repeat split]. simpl.
  rewrite Hg. repeat split.
Qed.

(** X8.  A level without a goal cell never completes: over any run of
    steps the goal flag, the effect log, the timer and the pause flag
    stay as they were, wherever the ball goes. *)
Theorem missing_goal_never_completes (frames : list (R * R)) : forall (w : World),
  goalCell w = None ->
  goalReached (run frames w) = goalReached w
  /\ effects (run frames w) = effects w
  /\ timerState (run frames w) = timerState w
  /\ animationPaused (run frames w) = animationPaused w.
Proof.
  induction frames as [| [now dt] rest IH]; intros w Hg; [repeat split |].
  unfold run in *. simpl.
  destruct (stepPhysics_no_goal now dt w Hg) as (H1 & H2 & H3 & H4).
  destruct (IH (stepPhysics now dt w)) as (I1 & I2 & I3 & I4).
  { rewrite stepPhysics_goalCell. exact Hg. }
  rewrite I1, I2, I3, I4. repeat split; assumption.
Qed.

Lemma missing_goal_never_completes_witness :
  let w := mkWorld wallBelow (Some wallBelowInfo) (Some (mkCell 0 0)) None
                   false None false (mkBall (mkVec 4 4) (mkVec 0 0) 3)
                   (mkSensor (mkVec 0 900) true true) (mkTimer 0 0 true true) 1 [] in
  goalReached (run [(0, 0.016); (16, 0.016)] w) = false.
Proof.
  apply (missing_goal_never_completes [(0, 0.016); (16, 0.016)]). reflexivity.
Defined.

(** ** The band of tiles of a pass *)

Lemma zrange_In (lo hi z : Z) : In z (zrange lo hi) <-> (lo <= z <= hi)%Z.
Proof.
  unfold zrange. rewrite in_map_iff. split.
  - intros (i & Hi & Hin). apply in_seq in Hin. lia.
  - intros [H1 H2]. exists (Z.to_nat (z - lo)). split; [lia |].
    apply in_seq. lia.
Qed.

Lemma zrange_length (lo hi : Z) : length (zrange lo hi) = Z.to_nat (hi - lo + 1).
Proof. unfold zrange. rewrite length_map, length_seq. reflexivity. Qed.

Lemma floor_spec (x : R) : IZR (floor x) <= x < IZR (floor x) + 1.
Proof. unfold floor. destruct (base_Int_part x). lra. Qed.

Lemma floor_near (c rad cs : R) :
  0 < cs -> 0 <= 2 * rad <= cs ->
  (floor ((c + rad) / cs) <= floor ((c - rad) / cs) + 1)%Z.
Proof.
  intros Hcs Hrad.
  pose proof (floor_spec ((c + rad) / cs)) as H1.
  pose proof (floor_spec ((c - rad) / cs)) as H2.
  assert (Hd : (c + rad) / cs <= (c - rad) / cs + 1).
  { replace ((c - rad) / cs + 1) with ((c - rad + cs) / cs) by (field; lra).
    apply Rmult_le_compat_r; [left; apply Rinv_0_lt_compat; exact Hcs | lra]. }
  assert (Hlt : IZR (floor ((c + rad) / cs)) < IZR (floor ((c - rad) / cs) + 2)).
  { rewrite plus_IZR. simpl. lra. }
  apply lt_IZR in Hlt. lia.
Qed.

(** X9.  A pass only examines tiles of the grid, and few of them:
    every row and column index of its band lies inside the layout, and
    when the ball's diameter is at most one cell size the band has at
    most two rows and two columns. *)
Theorem band_inside_grid (ri : RenderInfo) (rad cs x y : R) :
  (forall row, In row (bandRows ri rad cs y) -> (0 <= row < rows ri)%Z)
  /\ (forall col, In col (bandCols ri rad cs x) -> (0 <= col < cols ri)%Z)
  /\ (0 < cs -> 0 <= 2 * rad <= cs ->
      (length (bandRows ri rad cs y) <= 2)%nat
      /\ (length (bandCols ri rad cs x) <= 2)%nat).
Proof.
  split; [| split].
  - intros row Hin. unfold bandRows in Hin. apply zrange_In in Hin. lia.
  - intros col Hin. unfold bandCols in Hin. apply zrange_In in Hin. lia.
  - intros Hcs Hrad. unfold bandRows, bandCols. rewrite !zrange_length.
    pose proof (floor_near y rad cs Hcs Hrad).
    pose proof (floor_near x rad cs Hcs Hrad).
    split; lia.
Qed.

Lemma band_inside_grid_witness :
  (length (bandRows wallBelowInfo 3 8 9) <= 2)%nat
  /\ (length (bandCols wallBelowInfo 3 8 3) <= 2)%nat.
Proof.
  apply (band_inside_grid wallBelowInfo 3 8 3 9); lra.
Defined.

(** ** Placing and rescaling the ball *)

Lemma floor_of_centre (k : Z) (cs : R) :
  0 < cs -> floor ((IZR k + 0.5) * cs / cs) = k.
Proof.
  intro Hcs. apply floor_unique.
  replace ((IZR k + 0.5) * cs / cs) with (IZR k + 0.5) by (field; lra). lra.
Qed.

(** X10.  With a layout of positive cell size and a start cell,
    [placeBallAtStart] puts the ball at rest on the centre of the start
    tile and clears the goal flag; the tile containing the centre is the
    start cell, and when [0.45 * cellSize >= 3] the whole disc lies
    inside that tile. *)
Theorem placeBallAtStart_in_start_tile (w : World) (ri : RenderInfo) (sc : Cell) :
  renderInfo w = Some ri -> startCell w = Some sc -> 0 < cellSize ri ->
  let w' := placeBallAtStart w in
  let b := ball w' in
  let cs := cellSize ri in
  floor (vx (pos b) / cs) = cell_c sc
  /\ floor (vy (pos b) / cs) = cell_r sc
  /\ vel b = mkVec 0 0
  /\ goalReached w' = false
  /\ (3 <= 0.45 * cs ->
      IZR (cell_c sc) * cs < vx (pos b) - radius b
      /\ vx (pos b) + radius b < (IZR (cell_c sc) + 1) * cs
      /\ IZR (cell_r sc) * cs < vy (pos b) - radius b
      /\ vy (pos b) + radius b < (IZR (cell_r sc) + 1) * cs).
Proof.
  intros Hri Hsc Hcs w' b cs.
  unfold b, w', placeBallAtStart. rewrite Hri, Hsc. simpl. fold cs.
  split; [apply floor_of_centre; exact Hcs |].
  split; [apply floor_of_centre; exact Hcs |].
  split; [reflexivity |]. split; [reflexivity |].
  intro Hbig.
  assert (Hr : Rmax 3 (Rmin (cs * 0.35) (cs * 0.45)) <= 0.45 * cs).
  { rewrite Rmin_left by lra. apply Rmax_lub; lra. }
  set (r := Rmax 3 (Rmin (cs * 0.35) (cs * 0.45))) in *.
  repeat split; nra.
Qed.

Lemma placeBallAtStart_in_start_tile_witness :
  let w := mkWorld wallBelow (Some wallBelowInfo) (Some (mkCell 0 0)) None
                   true None false (mkBall (mkVec 0 0) (mkVec 5 5) 8)
                   (mkSensor (mkVec 0 0) false false) timerState0 1 [] in
  floor (vx (pos (ball (placeBallAtStart w))) / 8) = 0%Z.
Proof.
  apply (placeBallAtStart_in_start_tile
           (mkWorld wallBelow (Some wallBelowInfo) (Some (mkCell 0 0)) None
                    true None false (mkBall (mkVec 0 0) (mkVec 5 5) 8)
                    (mkSensor (mkVec 0 0) false false) timerState0 1 [])
           wallBelowInfo (mkCell 0 0)); try reflexivity. simpl. lra.
Defined.

(** X11.  [rescaleBall] keeps the ball where it is on the maze: with a
    non-zero old cell size and a layout of non-zero cell size, both
    coordinates divided by the new cell size are what they were divided
    by the old one, so the tile containing the centre is the same; the
    velocity is kept and the radius is the one of [syncBallRadius].  With
    no old cell size, or [0], or no layout, nothing changes. *)
Theorem rescaleBall_keeps_tile_position (old : R) (w : World) (ri : RenderInfo) :
  renderInfo w = Some ri -> old <> 0 -> cellSize ri <> 0 ->
  let b := ball w in
  let b' := ball (rescaleBall (Some old) w) in
  vx (pos b') / cellSize ri = vx (pos b) / old
  /\ vy (pos b') / cellSize ri = vy (pos b) / old
  /\ floor (vx (pos b') / cellSize ri) = floor (vx (pos b) / old)
  /\ floor (vy (pos b') / cellSize ri) = floor (vy (pos b) / old)
  /\ vel b' = vel b
  /\ radius b' = radius (syncBallRadius (cellSize ri) b)
  /\ rescaleBall None w = w
  /\ rescaleBall (Some 0) w = w.
Proof.
  intros Hri Hold Hcs b b'.
  assert (Hx : vx (pos b') / cellSize ri = vx (pos b) / old).
  { unfold b', rescaleBall. rewrite Hri.
    destruct (Req_dec_T old 0) as [E | _]; [contradiction |]. simpl.
    fold b. field. split; assumption. }
  assert (Hy : vy (pos b') / cellSize ri = vy (pos b) / old).
  { unfold b', rescaleBall. rewrite Hri.
    destruct (Req_dec_T old 0) as [E | _]; [contradiction |]. simpl.
    fold b. field. split; assumption. }
  split; [exact Hx |]. split; [exact Hy |].
  split; [rewrite Hx; reflexivity |]. split; [rewrite Hy; reflexivity |].
  unfold b', rescaleBall. rewrite Hri.
  destruct (Req_dec_T old 0) as [E | _]; [contradiction |]. simpl.
  split; [reflexivity |]. split; [reflexivity |]. split; [reflexivity |].
  destruct (Req_dec_T 0 0) as [_ | N]; [reflexivity | contradiction].
Qed.

Lemma rescaleBall_keeps_tile_position_witness :
  let w := mkWorld wallBelow (Some wallBelowInfo) (Some (mkCell 0 0)) None
                   false None false (mkBall (mkVec 10 30) (mkVec 5 5) 7)
                   (mkSensor (mkVec 0 0) false false) timerState0 1 [] in
  vx (pos (ball (rescaleBall (Some 20) w))) / 8 = 10 / 20.
Proof.
  apply (rescaleBall_keeps_tile_position 20
           (mkWorld wallBelow (Some wallBelowInfo) (Some (mkCell 0 0)) None
                    false None false (mkBall (mkVec 10 30) (mkVec 5 5) 7)
                    (mkSensor (mkVec 0 0) false false) timerState0 1 [])
           wallBelowInfo); [reflexivity | lra | simpl; lra].
Defined.

(** ** The shared grid renderer *)

Lemma uniformWidth_rectangular (g : Grid) (n : nat) :
  uniformWidth g n = true <-> rectangular g n.
Proof.
  unfold uniformWidth, rectangular. rewrite forallb_forall, Forall_forall.
  split; intros H r Hin; specialize (H r Hin).
  - apply Nat.eqb_eq. exact H.
  - apply Nat.eqb_eq. exact H.
Qed.

(** X12.  What [renderGridToCanvas] gives back: [null] exactly when
    there is no canvas or the grid is missing or empty; an [Error]
    exactly when the canvas and a non-empty grid are there and some row
    differs in width from the first; otherwise a layout whose [rows] and
    [cols] are the number of rows and the width of the first row of a
    rectangular grid. *)
Theorem renderGridToCanvas_outcome (canvas : bool) (g : option Grid)
        (opts : RenderOptions) :
  match renderGridToCanvas canvas g opts with
  | Returned None => canvas = false \/ g = None \/ g = Some []
  | Thrown _ =>
    canvas = true /\
    exists grid, g = Some grid /\ grid <> []
                 /\ ~ rectangular grid (length (nth 0 grid []))
  | Returned (Some ri) =>
    canvas = true /\
    exists grid, g = Some grid /\ grid <> []
                 /\ rectangular grid (length (nth 0 grid []))
                 /\ rows ri = Z.of_nat (length grid)
                 /\ cols ri = Z.of_nat (length (nth 0 grid []))
  end.
Proof.
  unfold renderGridToCanvas.
  destruct canvas; [| left; reflexivity].
  destruct g as [[| row0 rest] |]; [right; right; reflexivity | | right; left; reflexivity].
  destruct (uniformWidth (row0 :: rest) (length row0)) eqn:Hu; simpl.
  - split; [reflexivity |]. exists (row0 :: rest).
    split; [reflexivity |]. split; [discriminate |]. simpl.
    split; [apply uniformWidth_rectangular; exact Hu |]. split; reflexivity.
  - split; [reflexivity |]. exists (row0 :: rest).
    split; [reflexivity |]. split; [discriminate |]. simpl.
    intro Hr. apply uniformWidth_rectangular in Hr. congruence.
Qed.

Lemma renderGridToCanvas_layout_value (row0 : Row) (rest : Grid)
      (opts : RenderOptions) (ri : RenderInfo) :
  renderGridToCanvas true (Some (row0 :: rest)) opts = Returned (Some ri) ->
  cellSize ri = Rmax (minCell opts)
                     (IZR (floor (Rmin (maxWidth opts / INR (length row0))
                                       (maxHeight opts / INR (length (row0 :: rest))))))
  /\ cols ri = Z.of_nat (length row0)
  /\ rows ri = Z.of_nat (length (row0 :: rest)).
Proof.
  unfold renderGridToCanvas.
  destruct (uniformWidth (row0 :: rest) (length row0)); simpl; [| discriminate].
  intro H. injection H as H. subst ri. simpl. repeat split.
Qed.

(** X13.  The cell size of a layout.  For a grid whose first row is
    not empty, the cell size returned by [renderGridToCanvas] is at
    least [minCell], and is either [minCell] or a whole number; and when
    [minCell] columns-wide and rows-high cells fit the box
    ([cols * minCell <= maxWidth] and [rows * minCell <= maxHeight]), the
    drawn grid fits it too. *)
Theorem renderGridToCanvas_cell_size (row0 : Row) (rest : Grid)
        (opts : RenderOptions) (ri : RenderInfo) :
  row0 <> [] ->
  renderGridToCanvas true (Some (row0 :: rest)) opts = Returned (Some ri) ->
  minCell opts <= cellSize ri
  /\ (cellSize ri = minCell opts \/ exists k : Z, cellSize ri = IZR k)
  /\ (IZR (cols ri) * minCell opts <= maxWidth opts ->
      IZR (rows ri) * minCell opts <= maxHeight opts ->
      IZR (cols ri) * cellSize ri <= maxWidth opts
      /\ IZR (rows ri) * cellSize ri <= maxHeight opts).
Proof.
  intros Hne Hret.
  destruct (renderGridToCanvas_layout_value row0 rest opts ri Hret) as (Hcs & Hc & Hr).
  rewrite Hcs, Hc, Hr. rewrite <- !INR_IZR_INZ.
  set (nc := INR (length row0)).
  set (nr := INR (length (row0 :: rest))).
  assert (Hnc : 0 < nc).
  { unfold nc. apply lt_0_INR. destruct row0; [congruence | simpl; lia]. }
  assert (Hnr : 0 < nr) by (unfold nr; apply lt_0_INR; simpl; lia).
  set (q := Rmin (maxWidth opts / nc) (maxHeight opts / nr)).
  pose proof (floor_spec q) as [Hfl _].
  assert (Hqw : q <= maxWidth opts / nc) by apply Rmin_l.
  assert (Hqh : q <= maxHeight opts / nr) by apply Rmin_r.
  split; [apply Rmax_l |]. split.
  - unfold Rmax. destruct (Rle_dec _ _); [right; eexists; reflexivity | left; reflexivity].
  - intros Hw Hh.
    assert (Hwq : nc * (maxWidth opts / nc) = maxWidth opts) by (field; lra).
    assert (Hhq : nr * (maxHeight opts / nr) = maxHeight opts) by (field; lra).
    split.
    + unfold Rmax. destruct (Rle_dec _ _); [| exact Hw].
      rewrite <- Hwq. apply Rmult_le_compat_l; lra.
    + unfold Rmax. destruct (Rle_dec _ _); [| exact Hh].
      rewrite <- Hhq. apply Rmult_le_compat_l; lra.
Qed.

Lemma renderGridToCanvas_cell_size_witness :
  4 <= Rmax 4 (IZR (floor (Rmin (220 / INR 2) (140 / INR 2)))).
Proof.
  apply (renderGridToCanvas_cell_size (list_ascii_of_string ".#")
           [list_ascii_of_string "S."] (mkOptions 220 140 4)
           (mkRenderInfo 2 2 (Rmax 4 (IZR (floor (Rmin (220 / INR 2) (140 / INR 2)))))));
    [discriminate | reflexivity].
Defined.

(** ** Laying the level out on the play page *)

Lemma drawGridOptions_height (vp : Viewport) (nrows ncols0 : nat) :
  120 <= maxHeight (drawGridOptions vp nrows ncols0) <= 1200
  /\ minCell (drawGridOptions vp nrows ncols0) = 8.
Proof.
  unfold drawGridOptions. simpl. split; [| reflexivity].
  set (a := Rmax 120 _).
  assert (Ha : 120 <= a) by apply Rmax_l.
  split; [apply Rmin_glb; lra | apply Rmin_r].
Qed.

Lemma radius_after_sync (cs : R) (b : Ball) :
  8 <= cs -> 3 <= radius (syncBallRadius cs b) <= 0.45 * cs.
Proof.
  intro H. rewrite syncBallRadius_value by lra.
  split; [apply Rmax_l | apply Rmax_lub; lra].
Qed.

Lemma drawGrid_result (vp : Viewport) (row0 : Row) (rest : Grid) (w : World) :
  hasCanvas vp = true ->
  rectangular (row0 :: rest) (length row0) ->
  exists cs,
    8 <= cs <= 1200
    /\ let ri := mkRenderInfo (Z.of_nat (length row0))
                              (Z.of_nat (length (row0 :: rest))) cs in
       let w1 := set_renderInfo w (Some ri) in
       drawGrid vp (Some (row0 :: rest)) w
       = match renderInfo w with
         | Some ri0 => if Req_dec_T (cellSize ri0) 0 then placeBallAtStart w1
                       else rescaleBall (Some (cellSize ri0)) w1
         | None => placeBallAtStart w1
         end.
Proof.
  intros Hcanvas Hrect.
  set (opts := drawGridOptions vp (length (row0 :: rest)) (length row0)).
  destruct (drawGridOptions_height vp (length (row0 :: rest)) (length row0))
    as [Hmh Hmin]. fold opts in Hmh, Hmin.
  set (nr := INR (length (row0 :: rest))).
  set (nc := INR (length row0)).
  set (cs := Rmax (minCell opts)
                  (IZR (floor (Rmin (maxWidth opts / nc) (maxHeight opts / nr))))).
  exists cs.
  assert (Hnr : 1 <= nr).
  { unfold nr. replace 1 with (INR 1) by reflexivity. apply le_INR. simpl. lia. }
  split.
  - unfold cs. rewrite Hmin. split; [apply Rmax_l |].
    apply Rmax_lub; [lra |].
    pose proof (floor_spec (Rmin (maxWidth opts / nc) (maxHeight opts / nr))) as [Hfl _].
    pose proof (Rmin_r (maxWidth opts / nc) (maxHeight opts / nr)) as Hq.
    assert (Hdiv : maxHeight opts / nr <= maxHeight opts).
    { apply Rmult_le_reg_r with nr; [lra |].
      replace (maxHeight opts / nr * nr) with (maxHeight opts) by (field; lra). nra. }
    lra.
  - cbv zeta. unfold drawGrid. fold opts. rewrite Hcanvas.
    unfold renderGridToCanvas.
    apply uniformWidth_rectangular in Hrect. rewrite Hrect. simpl negb. cbv iota.
    fold nr nc cs.
    destruct (renderInfo w) as [ri0 |]; reflexivity.
Qed.

(** X14.  Every layout of the play page.  For a canvas and a
    rectangular grid, [drawGrid] stores a layout with the grid's
    dimensions and a cell size between [8] and [1200], whatever the
    window; for such a cell size the divisor of the sub-step count is
    [0.45 * cellSize] itself; and when the ball was placed or rescaled
    (there is a start cell, or there was a layout of non-zero cell size
    before) its radius satisfies [3 <= radius <= 0.45 * cellSize]. *)
Theorem drawGrid_layout (vp : Viewport) (row0 : Row) (rest : Grid) (w : World) :
  hasCanvas vp = true -> row0 <> [] ->
  rectangular (row0 :: rest) (length row0) ->
  let w' := drawGrid vp (Some (row0 :: rest)) w in
  exists ri,
    renderInfo w' = Some ri
    /\ cols ri = Z.of_nat (length row0)
    /\ rows ri = Z.of_nat (length (row0 :: rest))
    /\ 8 <= cellSize ri <= 1200
    /\ (forall speed dt,
           steps speed dt (cellSize ri)
           = Z.max 1 (ceil (speed * dt / (cellSize ri * 0.45))))
    /\ ((startCell w <> None
         \/ exists ri0, renderInfo w = Some ri0 /\ cellSize ri0 <> 0) ->
        3 <= radius (ball w') <= 0.45 * cellSize ri).
Proof.
  intros Hcanvas Hne Hrect w'.
  destruct (drawGrid_result vp row0 rest w Hcanvas Hrect) as (cs & Hcs & Hdraw).
  cbv zeta in Hdraw.
  set (ri := mkRenderInfo (Z.of_nat (length row0)) (Z.of_nat (length (row0 :: rest))) cs) in *.
  exists ri.
  assert (Hw' : renderInfo w' = Some ri
                /\ ((startCell w <> None
                     \/ exists ri0, renderInfo w = Some ri0 /\ cellSize ri0 <> 0) ->
                    3 <= radius (ball w') <= 0.45 * cs)).
  { unfold w'. rewrite Hdraw.
    destruct (renderInfo w) as [ri0 |] eqn:Hri0.
    - destruct (Req_dec_T (cellSize ri0) 0) as [Hz | Hnz].
      + unfold placeBallAtStart. simpl.
        destruct (startCell w) as [sc |] eqn:Hsc; simpl.
        * split; [reflexivity |]. intros _.
          exact (radius_after_sync cs (ball w) (proj1 Hcs)).
        * split; [reflexivity |].
          intros [Habs | (ri1 & E & Hnz)]; [congruence |].
          injection E as E. subst ri1. contradiction.
      + unfold rescaleBall. simpl.
        destruct (Req_dec_T (cellSize ri0) 0) as [Hz | _]; [contradiction |]. simpl.
        split; [reflexivity |]. intros _.
        exact (radius_after_sync cs (ball w) (proj1 Hcs)).
    - unfold placeBallAtStart. simpl.
      destruct (startCell w) as [sc |] eqn:Hsc; simpl.
      + split; [reflexivity |]. intros _.
        exact (radius_after_sync cs (ball w) (proj1 Hcs)).
      + split; [reflexivity |].
        intros [Habs | (ri1 & E & _)]; congruence. }
  destruct Hw' as [Hri Hrad].
  split; [exact Hri |]. split; [reflexivity |]. split; [reflexivity |].
  split; [exact Hcs |]. split; [| exact Hrad].
  intros speed dt. unfold steps. simpl.
  rewrite (Rmax_right 1 (cs * 0.45)) by lra. reflexivity.
Qed.

Lemma drawGrid_layout_witness :
  exists ri,
    renderInfo (drawGrid (mkViewport 800 600 (Some 56) (Some 48) true)
                         (Some sampleGrid) completedWorld) = Some ri
    /\ 8 <= cellSize ri <= 1200.
Proof.
  destruct (drawGrid_layout (mkViewport 800 600 (Some 56) (Some 48) true)
              (list_ascii_of_string ".#") [list_ascii_of_string "S."]
              completedWorld) as (ri & Hri & _ & _ & Hcs & _).
  - reflexivity.
  - discriminate.
  - repeat constructor.
  - exists ri. split; [exact Hri | exact Hcs].
Defined.

(** ** Choosing the level *)

Lemma find_first (A : Type) (f : A -> bool) (l : list A) (a : A) :
  find f l = Some a ->
  exists before after,
    l = before ++ a :: after /\ f a = true
    /\ forall b, In b before -> f b = false.
Proof.
  induction l as [| x tl IH]; simpl; [discriminate |].
  destruct (f x) eqn:Hx.
  - intro H. injection H as H. subst x. exists [], tl.
    split; [reflexivity |]. split; [exact Hx |]. intros b [].
  - intro H. destruct (IH H) as (before & after & Hl & Ha & Hb).
    exists (x :: before), after. split; [rewrite Hl; reflexivity |].
    split; [exact Ha |]. intros b [E | Hin]; [subst b; exact Hx | apply Hb; exact Hin].
Qed.

(** X15.  Only a sound level reaches [renderLevel]: the entry chosen by
    the handler of the fetched list is the first entry of the list with
    the requested number, and its grid is present, non-empty and
    rectangular; and the message "not found" means that no entry of a
    non-empty list has that number. *)
Theorem selectLevel_sound (requested : Z) (levels : option (list LevelEntry)) :
  match selectLevel requested levels with
  | Selected e =>
    exists before after g,
      levels = Some (before ++ e :: after)
      /\ entry_level e = requested
      /\ (forall b, In b before -> entry_level b <> requested)
      /\ grid (entry_data e) = Some g
      /\ g <> []
      /\ rectangular g (length (nth 0 g []))
  | NotFound =>
    exists l, levels = Some l /\ l <> []
              /\ forall e, In e l -> entry_level e <> requested
  | NoLevels => levels = None \/ levels = Some []
  | EmptyGrid | NotUniform => True
  end.
Proof.
  unfold selectLevel.
  destruct levels as [[| e0 l] |]; [right; reflexivity | | left; reflexivity].
  destruct (find (fun e => (entry_level e =? requested)%Z) (e0 :: l)) as [found |] eqn:Hf.
  - destruct (grid (entry_data found)) as [[| row0 rest] |] eqn:Hg; [exact I | | exact I].
    destruct (uniformWidth (row0 :: rest) (length row0)) eqn:Hu; [| exact I].
    destruct (find_first _ _ _ _ Hf) as (before & after & Hl & Ha & Hb).
    exists before, after, (row0 :: rest).
    split; [rewrite Hl; reflexivity |].
    split; [apply Z.eqb_eq; exact Ha |].
    split; [intros b Hin; apply Z.eqb_neq; apply Hb; exact Hin |].
    split; [exact Hg |]. split; [discriminate |].
    simpl. apply uniformWidth_rectangular. exact Hu.
  - exists (e0 :: l). split; [reflexivity |]. split; [discriminate |].
    intros e Hin. apply Z.eqb_neq. exact (find_none _ _ Hf e Hin).
Qed.

Lemma selectLevel_sound_witness :
  exists before after g,
    Some [mkEntry 1 (mkLevel (Some sampleGrid));
          mkEntry 2 (mkLevel (Some sampleGrid));
          mkEntry 2 (mkLevel None)]
    = Some (before ++ mkEntry 2 (mkLevel (Some sampleGrid)) :: after)
    /\ entry_level (mkEntry 2 (mkLevel (Some sampleGrid))) = 2%Z
    /\ (forall b, In b before -> entry_level b <> 2%Z)
    /\ grid (entry_data (mkEntry 2 (mkLevel (Some sampleGrid)))) = Some g
    /\ g <> []
    /\ rectangular g (length (nth 0 g [])).
Proof.
  exact (selectLevel_sound 2
           (Some [mkEntry 1 (mkLevel (Some sampleGrid));
                  mkEntry 2 (mkLevel (Some sampleGrid));
                  mkEntry 2 (mkLevel None)])).
Defined.


(** ** Best times *)

Lemma lookup_assign_same (level : Z) (v : R) (times : Times) :
  lookupTime level (assignTime level v times) = Some v.
Proof.
  induction times as [| [k x] tl IH]; simpl.
  - rewrite Z.eqb_refl. reflexivity.
  - destruct (k =? level)%Z eqn:E; simpl; rewrite E; [reflexivity | exact IH].
Qed.

Lemma lookup_assign_other (level other : Z) (v : R) (times : Times) :
  other <> level ->
  lookupTime other (assignTime level v times) = lookupTime other times.
Proof.
  intro Hne. induction times as [| [k x] tl IH]; simpl.
  - replace (level =? other)%Z with false by (symmetry; apply Z.eqb_neq; lia).
    reflexivity.
  - destruct (k =? level)%Z eqn:E; simpl.
    + apply Z.eqb_eq in E. subst k.
      replace (level =? other)%Z with false by (symmetry; apply Z.eqb_neq; lia).
      reflexivity.
    + destruct (k =? other)%Z; [reflexivity | exact IH].
Qed.

Lemma assign_assign (level : Z) (v v' : R) (times : Times) :
  assignTime level v' (assignTime level v times) = assignTime level v' times.
Proof.
  induction times as [| [k x] tl IH]; simpl.
  - rewrite Z.eqb_refl. reflexivity.
  - destruct (k =? level)%Z eqn:E; simpl; rewrite E; [reflexivity |].
    rewrite IH. reflexivity.
Qed.

Lemma jsRound_mono (x y : R) : x <= y -> (jsRound x <= jsRound y)%Z.
Proof.
  intro H. unfold jsRound.
  pose proof (floor_spec (x + 0.5)) as Hx.
  pose proof (floor_spec (y + 0.5)) as Hy.
  assert (Hlt : IZR (floor (x + 0.5)) < IZR (floor (y + 0.5) + 1)).
  { rewrite plus_IZR. simpl. lra. }
  apply lt_IZR in Hlt. lia.
Qed.

Lemma jsRound_whole (k : Z) : jsRound (IZR k) = k.
Proof. unfold jsRound. apply floor_unique. lra. Qed.

Lemma jsRound_below (x : R) (k : Z) : x < IZR k -> (jsRound x <= k)%Z.
Proof.
  intro H. unfold jsRound.
  pose proof (floor_spec (x + 0.5)) as Hx.
  assert (Hlt : IZR (floor (x + 0.5)) < IZR (k + 1)).
  { rewrite plus_IZR. simpl. lra. }
  apply lt_IZR in Hlt. lia.
Qed.

Lemma save_keeps_rounded_minimum (level : Z) (m ms : R) (stored : option Times) :
  0 <= ms ->
  lookupTime level (loadCompletionTimes stored) = Some (IZR (jsRound m)) ->
  lookupTime level (loadCompletionTimes (saveCompletionTime level ms stored))
  = Some (IZR (jsRound (Rmin m ms))).
Proof.
  intros Hms Hl. unfold saveCompletionTime.
  destruct (Rlt_dec ms 0) as [Hneg | _]; [lra |].
  rewrite Hl.
  destruct (Rlt_dec ms (IZR (jsRound m))) as [Hlt | Hge].
  - simpl. rewrite lookup_assign_same. f_equal. f_equal.
    destruct (Rle_dec ms m) as [Hle | Hgt].
    + rewrite Rmin_right by exact Hle. reflexivity.
    + rewrite Rmin_left by lra.
      pose proof (jsRound_mono m ms ltac:(lra)).
      pose proof (jsRound_below ms (jsRound m) Hlt). lia.
  - rewrite Hl. f_equal. f_equal.
    destruct (Rle_dec m ms) as [Hle | Hgt].
    + rewrite Rmin_left by exact Hle. reflexivity.
    + rewrite Rmin_right by lra.
      pose proof (jsRound_mono ms m ltac:(lra)).
      pose proof (jsRound_mono (IZR (jsRound m)) ms ltac:(lra)) as H2.
      rewrite jsRound_whole in H2. lia.
Qed.

Lemma saveAll_keeps_rounded_minimum (level : Z) (l : list R) :
  forall (m : R) (stored : option Times),
    Forall (fun ms => 0 <= ms) l ->
    lookupTime level (loadCompletionTimes stored) = Some (IZR (jsRound m)) ->
    lookupTime level (loadCompletionTimes (saveAll level l stored))
    = Some (IZR (jsRound (fold_left Rmin l m))).
Proof.
  induction l as [| ms rest IH]; intros m stored Hall Hl; [exact Hl |].
  unfold saveAll in *. simpl. apply IH.
  - exact (Forall_inv_tail Hall).
  - apply save_keeps_rounded_minimum; [exact (Forall_inv Hall) | exact Hl].
Qed.

(** X16.  The store keeps the best time.  Starting from a store with
    no time for the level, after saving any non-empty series of
    non-negative times the time kept for the level is the smallest of
    them, rounded to the nearest whole millisecond. *)
Theorem best_time_is_rounded_minimum (level : Z) (first : R) (rest : list R)
        (stored : option Times) :
  lookupTime level (loadCompletionTimes stored) = None ->
  Forall (fun ms => 0 <= ms) (first :: rest) ->
  lookupTime level (loadCompletionTimes (saveAll level (first :: rest) stored))
  = Some (IZR (jsRound (fold_left Rmin rest first))).
Proof.
  intros Hnone Hall.
  change (saveAll level (first :: rest) stored)
    with (saveAll level rest (saveCompletionTime level first stored)).
  apply saveAll_keeps_rounded_minimum; [exact (Forall_inv_tail Hall) |].
  unfold saveCompletionTime.
  destruct (Rlt_dec first 0) as [Hneg | _]; [pose proof (Forall_inv Hall); simpl in *; lra |].
  rewrite Hnone. simpl. apply lookup_assign_same.
Qed.

Lemma best_time_is_rounded_minimum_witness :
  lookupTime 3 (loadCompletionTimes (saveAll 3 [5000.4; 4200.6; 4800] None))
  = Some (IZR (jsRound (fold_left Rmin [4200.6; 4800] 5000.4))).
Proof.
  apply (best_time_is_rounded_minimum 3 5000.4 [4200.6; 4800] None).
  - reflexivity.
  - repeat constructor; lra.
Defined.

(** X17.  A save touches one level only, and only for a valid time: a
    negative time leaves the store as it is; the times of other levels
    read the same before and after; and saving the same time a second
    time changes nothing. *)
Theorem saveCompletionTime_local (level : Z) (ms : R) (stored : option Times) :
  (ms < 0 -> saveCompletionTime level ms stored = stored)
  /\ (forall other, other <> level ->
        lookupTime other (loadCompletionTimes (saveCompletionTime level ms stored))
        = lookupTime other (loadCompletionTimes stored))
  /\ saveCompletionTime level ms (saveCompletionTime level ms stored)
     = saveCompletionTime level ms stored.
Proof.
  split; [| split].
  - intro Hneg. unfold saveCompletionTime.
    destruct (Rlt_dec ms 0); [reflexivity | contradiction].
  - intros other Hne. unfold saveCompletionTime.
    destruct (Rlt_dec ms 0); [reflexivity |].
    destruct (lookupTime level (loadCompletionTimes stored)) as [existing |].
    + destruct (Rlt_dec ms existing); [| reflexivity].
      simpl. apply lookup_assign_other. exact Hne.
    + simpl. apply lookup_assign_other. exact Hne.
  - destruct (Rlt_dec ms 0) as [Hneg | Hnn].
    { assert (Hs : saveCompletionTime level ms stored = stored).
      { unfold saveCompletionTime. destruct (Rlt_dec ms 0); [reflexivity | contradiction]. }
      rewrite Hs. exact Hs. }
    set (times := loadCompletionTimes stored).
    assert (Hwritten :
              saveCompletionTime level ms (Some (assignTime level (IZR (jsRound ms)) times))
              = Some (assignTime level (IZR (jsRound ms)) times)).
    { unfold saveCompletionTime.
      destruct (Rlt_dec ms 0); [contradiction |]. simpl.
      rewrite lookup_assign_same.
      destruct (Rlt_dec ms (IZR (jsRound ms))); [| reflexivity].
      rewrite assign_assign. reflexivity. }
    assert (Hcases : saveCompletionTime level ms stored = stored
                     \/ saveCompletionTime level ms stored
                        = Some (assignTime level (IZR (jsRound ms)) times)).
    { unfold saveCompletionTime.
      destruct (Rlt_dec ms 0); [contradiction |]. fold times.
      destruct (lookupTime level times) as [existing |]; [| right; reflexivity].
      destruct (Rlt_dec ms existing); [right | left]; reflexivity. }
    destruct Hcases as [Hs | Hs]; rewrite Hs; [exact Hs | exact Hwritten].
Qed.

Lemma saveCompletionTime_local_witness :
  saveCompletionTime 2 (-1) (Some [(1%Z, 900)]) = Some [(1%Z, 900)].
Proof.
  apply (saveCompletionTime_local 2 (-1) (Some [(1%Z, 900)])). lra.
Defined.

(** ** Showing a time *)

Lemma floor_shift (x : R) (k : Z) : floor (x - IZR k) = (floor x - k)%Z.
Proof.
  apply floor_unique. rewrite minus_IZR.
  pose proof (floor_spec x). lra.
Qed.

Lemma floor_nonneg (x : R) : 0 <= x -> (0 <= floor x)%Z.
Proof.
  intro H. pose proof (floor_spec x) as [_ H2].
  assert (Hlt : IZR (-1) < IZR (floor x)) by (simpl; lra).
  apply lt_IZR in Hlt. lia.
Qed.

Lemma floor_below (x : R) (k : Z) : x < IZR k -> (floor x < k)%Z.
Proof.
  intro H. pose proof (floor_spec x) as [H1 _].
  apply lt_IZR. lra.
Qed.

Lemma jsTrunc_nonneg (x : R) : 0 <= x -> jsTrunc x = floor x.
Proof. intro H. unfold jsTrunc. destruct (Rlt_dec x 0); [lra | reflexivity]. Qed.

Lemma elapsedFields_values (ms : R) :
  0 <= ms ->
  elapsedFields ms =
  (floor (ms / 60000),
   (floor (ms / 1000) - 60 * floor (ms / 60000))%Z,
   (floor (ms / 10) - 100 * floor (ms / 1000))%Z).
Proof.
  intro Hms. unfold elapsedFields, jsRem.
  assert (Ht : 0 <= ms / 1000) by lra.
  replace (ms / 1000 / 60) with (ms / 60000) by field.
  rewrite (jsTrunc_nonneg (ms / 60000)) by lra.
  replace (ms / 1000 * 100 / 100) with (ms / 1000) by field.
  rewrite (jsTrunc_nonneg (ms / 1000)) by lra.
  replace (ms / 1000 * 100) with (ms / 10) by field.
  f_equal; [f_equal |].
  - replace (60 * IZR (floor (ms / 60000))) with (IZR (60 * floor (ms / 60000)))
      by (rewrite mult_IZR; reflexivity).
    apply floor_shift.
  - replace (100 * IZR (floor (ms / 1000))) with (IZR (100 * floor (ms / 1000)))
      by (rewrite mult_IZR; reflexivity).
    apply floor_shift.
Qed.

Lemma elapsed_floors (ms : R) :
  0 <= ms ->
  (0 <= floor (ms / 60000))%Z
  /\ (60 * floor (ms / 60000) <= floor (ms / 1000) < 60 * floor (ms / 60000) + 60)%Z
  /\ (100 * floor (ms / 1000) <= floor (ms / 10) < 100 * floor (ms / 1000) + 100)%Z.
Proof.
  intro Hms.
  pose proof (floor_spec (ms / 60000)) as Hm.
  pose proof (floor_spec (ms / 1000)) as Hs.
  pose proof (floor_spec (ms / 10)) as Hh.
  set (m := floor (ms / 60000)) in *.
  set (s := floor (ms / 1000)) in *.
  set (h := floor (ms / 10)) in *.
  assert (Hm0 : (0 <= m)%Z) by (apply floor_nonneg; lra).
  assert (Hs1 : (60 * m <= s)%Z).
  { assert (Hlt : IZR (60 * m) < IZR (s + 1)).
    { rewrite mult_IZR, plus_IZR. simpl. lra. }
    apply lt_IZR in Hlt. lia. }
  assert (Hs2 : (s < 60 * m + 60)%Z).
  { apply lt_IZR. rewrite plus_IZR, mult_IZR. simpl. lra. }
  assert (Hh1 : (100 * s <= h)%Z).
  { assert (Hlt : IZR (100 * s) < IZR (h + 1)).
    { rewrite mult_IZR, plus_IZR. simpl. lra. }
    apply lt_IZR in Hlt. lia. }
  assert (Hh2 : (h < 100 * s + 100)%Z).
  { apply lt_IZR. rewrite plus_IZR, mult_IZR. simpl. lra. }
  repeat split; assumption.
Qed.



Lemma pad_two_digits (n : Z) :
  (0 <= n <= 99)%Z -> padStart2 (stringOfZ n) = twoDigits n.
Proof.
  intro Hn.
  assert (Hall : forallb (fun k => String.eqb (padStart2 (stringOfZ (Z.of_nat k)))
                                              (twoDigits (Z.of_nat k)))
                         (seq 0 100) = true) by (vm_compute; reflexivity).
  rewrite forallb_forall in Hall.
  specialize (Hall (Z.to_nat n)).
  rewrite Z2Nat.id in Hall by lia.
  apply String.eqb_eq. apply Hall. apply in_seq. lia.
Qed.

(** X19.  The shown time.  For a time of less than a hundred minutes
    ([0 <= ms < 6000000]) [formatElapsed] prints eight characters: two
    digits of minutes, a colon, two digits of seconds, a dot, two digits
    of hundredths; [formatMs] prints the same for a time and a dash for
    a missing one. *)
Theorem formatElapsed_shape (ms : R) :
  0 <= ms < 6000000 ->
  let '(minutes, seconds, hundredths) := elapsedFields ms in
  formatElapsed ms
  = (twoDigits minutes ++ ":" ++ twoDigits seconds ++ "." ++ twoDigits hundredths)%string
  /\ String.length (formatElapsed ms) = 8%nat
  /\ formatMs (Some ms) = formatElapsed ms
  /\ formatMs None = "-"%string.
Proof.
  intros [Hms Hlt].
  pose proof (elapsed_floors ms Hms) as (Hm & Hs & Hh).
  assert (Hmin : (floor (ms / 60000) < 100)%Z) by (apply floor_below; simpl; lra).
  unfold formatMs, formatElapsed.
  rewrite elapsedFields_values by exact Hms.
  rewrite !pad_two_digits by lia.
  split; [reflexivity |]. split; [reflexivity |]. split; reflexivity.
Qed.

Lemma formatElapsed_shape_witness :
  String.length (formatElapsed 83456) = 8%nat.
Proof.
  pose proof (formatElapsed_shape 83456) as H.
  destruct (elapsedFields 83456) as [[m s] h].
  apply H. lra.
Defined.

(** ** Input: tilt and keys *)

Lemma clamp_opp_unit (x : R) : clamp (- x) (-1) 1 = - clamp x (-1) 1.
Proof.
  destruct (Rle_dec x (-1)); destruct (Rle_dec 1 x); eval_minmax; lra.
Qed.

Lemma clamp_between (x lo hi : R) : lo <= hi -> lo <= clamp x lo hi <= hi.
Proof.
  intro H. unfold clamp. split; [apply Rmin_glb; [exact H | apply Rmax_l] | apply Rmin_l].
Qed.

Lemma tilt_accel_bound (t : R) : -900 <= clamp (t / 45) (-1) 1 * 900 <= 900.
Proof.
  pose proof (clamp_between (t / 45) (-1) 1 ltac:(lra)). lra.
Qed.

Lemma handleOrientation_accel (angle : Z) (event : OrientationEvent)
      (s : SensorState) :
  -900 <= vx (accel (handleOrientation angle event s)) <= 900
  /\ -900 <= vy (accel (handleOrientation angle event s)) <= 900.
Proof.
  unfold handleOrientation.
  destruct (angle =? 90)%Z; [| destruct ((angle =? -90) || (angle =? 270))%Z;
                                [| destruct (angle =? 180)%Z]];
    simpl; split; apply tilt_accel_bound.
Qed.

(** X20.  Whatever the event and the screen angle, [handleOrientation]
    leaves an acceleration with both components between [-900] and
    [900], marks the sensor as available and keeps its [enabled] flag. *)
Theorem handleOrientation_bounded (angle : Z) (event : OrientationEvent)
        (s : SensorState) :
  let s' := handleOrientation angle event s in
  -900 <= vx (accel s') <= 900
  /\ -900 <= vy (accel s') <= 900
  /\ available s' = true
  /\ enabled s' = enabled s.
Proof.
  intro s'. destruct (handleOrientation_accel angle event s) as [Hx Hy].
  split; [exact Hx |]. split; [exact Hy |].
  unfold s', handleOrientation.
  destruct (angle =? 90)%Z; [| destruct ((angle =? -90) || (angle =? 270))%Z;
                                [| destruct (angle =? 180)%Z]];
    split; reflexivity.
Qed.

Lemma clamp_id (x lo hi : R) : lo <= x <= hi -> clamp x lo hi = x.
Proof.
  intros [H1 H2]. unfold clamp. rewrite Rmax_right by exact H1.
  apply Rmin_right. exact H2.
Qed.

(** X21.  The rotation table.  For tilt angles [gamma], [beta] within
    [-45] and [45] degrees the acceleration is [20] per degree, along
    axes that follow the screen: [(gamma, beta)] at angle [0],
    [(beta, -gamma)] at [90], [(-gamma, -beta)] at [180] and
    [(-beta, gamma)] at [270] and [-90]; any other angle is treated as
    [0]. *)
Theorem handleOrientation_rotation (g b : R) (s : SensorState) (angle : Z) :
  -45 <= g <= 45 -> -45 <= b <= 45 ->
  let ev := mkOrientation (Some g) (Some b) in
  accel (handleOrientation 0 ev s) = mkVec (g / 45 * 900) (b / 45 * 900)
  /\ accel (handleOrientation 90 ev s) = mkVec (b / 45 * 900) (- g / 45 * 900)
  /\ accel (handleOrientation 180 ev s) = mkVec (- g / 45 * 900) (- b / 45 * 900)
  /\ accel (handleOrientation 270 ev s) = mkVec (- b / 45 * 900) (g / 45 * 900)
  /\ accel (handleOrientation (-90) ev s) = mkVec (- b / 45 * 900) (g / 45 * 900)
  /\ (angle <> 90 -> angle <> -90 -> angle <> 270 -> angle <> 180 ->
      handleOrientation angle ev s = handleOrientation 0 ev s)%Z.
Proof.
  intros Hg Hb ev.
  assert (Eg : clamp g (-50) 50 = g) by (apply clamp_id; lra).
  assert (Eb : clamp b (-50) 50 = b) by (apply clamp_id; lra).
  unfold handleOrientation, ev. simpl. rewrite Eg, Eb.
  repeat split.
  - rewrite !clamp_id by lra. reflexivity.
  - rewrite !clamp_id by lra. reflexivity.
  - rewrite !clamp_id by lra. reflexivity.
  - rewrite !clamp_id by lra. reflexivity.
  - rewrite !clamp_id by lra. reflexivity.
  - intros H1 H2 H3 H4.
    replace (angle =? 90)%Z with false by (symmetry; apply Z.eqb_neq; exact H1).
    replace (angle =? -90)%Z with false by (symmetry; apply Z.eqb_neq; exact H2).
    replace (angle =? 270)%Z with false by (symmetry; apply Z.eqb_neq; exact H3).
    replace (angle =? 180)%Z with false by (symmetry; apply Z.eqb_neq; exact H4).
    reflexivity.
Qed.

Lemma handleOrientation_rotation_witness :
  accel (handleOrientation 90 (mkOrientation (Some 9) (Some (-18)))
                           (mkSensor (mkVec 0 0) true false))
  = mkVec (-18 / 45 * 900) (- 9 / 45 * 900).
Proof.
  apply (handleOrientation_rotation 9 (-18) (mkSensor (mkVec 0 0) true false) 0); lra.
Defined.

(** X22.  Turning the screen upside down turns the acceleration round:
    for every event the acceleration at angle [180] is the opposite of
    the one at angle [0], and the one at [270] the opposite of the one at
    [90]. *)
Theorem handleOrientation_half_turn (event : OrientationEvent) (s : SensorState) :
  vx (accel (handleOrientation 180 event s)) = - vx (accel (handleOrientation 0 event s))
  /\ vy (accel (handleOrientation 180 event s)) = - vy (accel (handleOrientation 0 event s))
  /\ vx (accel (handleOrientation 270 event s)) = - vx (accel (handleOrientation 90 event s))
  /\ vy (accel (handleOrientation 270 event s)) = - vy (accel (handleOrientation 90 event s)).
Proof.
  unfold handleOrientation. simpl.
  set (g := clamp (orZero (gamma event)) (-50) 50).
  set (b := clamp (orZero (beta event)) (-50) 50).
  replace (- g / 45) with (- (g / 45)) by field.
  replace (- b / 45) with (- (b / 45)) by field.
  replace (- - g / 45) with (g / 45) by field.
  rewrite !clamp_opp_unit.
  repeat split; lra.
Qed.

(** X23.  Keys and tilt add up, and opposite keys cancel.  With the
    sensor state left by any orientation event, [computeAcceleration]
    stays within [-1600] and [1600] on both axes; with left and right
    both held (or both released) the horizontal acceleration is that of
    the tilt alone, and likewise for up and down. *)
Theorem computeAccelerationKeys_bounded (angle : Z) (event : OrientationEvent)
        (s : SensorState) (k : KeyState) :
  let s' := handleOrientation angle event s in
  let a := computeAccelerationKeys s' k in
  -1600 <= fst a <= 1600
  /\ -1600 <= snd a <= 1600
  /\ (key_left k = key_right k ->
      fst a = fst (computeAccelerationKeys s' (mkKeys false false false false)))
  /\ (key_up k = key_down k ->
      snd a = snd (computeAccelerationKeys s' (mkKeys false false false false))).
Proof.
  intros s' a.
  destruct (handleOrientation_accel angle event s) as (Hx & Hy).
  fold s' in Hx, Hy.
  unfold a, computeAccelerationKeys.
  destruct (enabled s' && available s'); simpl;
    destruct (key_left k), (key_right k), (key_up k), (key_down k); simpl;
      repeat split; try lra; try discriminate.
Qed.

Lemma computeAccelerationKeys_bounded_witness :
  let s' := handleOrientation 0 (mkOrientation (Some 30) None)
                              (mkSensor (mkVec 0 0) true false) in
  fst (computeAccelerationKeys s' (mkKeys true true false true))
  = fst (computeAccelerationKeys s' (mkKeys false false false false)).
Proof.
  apply (computeAccelerationKeys_bounded 0 (mkOrientation (Some 30) None)
           (mkSensor (mkVec 0 0) true false) (mkKeys true true false true)).
  reflexivity.
Defined.



(** ** After a frame the ball is inside the playfield *)

Lemma iter_last (A : Type) (f : A -> A) (n : nat) (a : A) :
  (1 <= n)%nat -> exists a', Nat.iter n f a = f a'.
Proof.
  intro H. destruct n as [| k]; [lia |]. exists (Nat.iter k f a). reflexivity.
Qed.

Lemma subStep_in_bounds (lvl : option Level) (ri : RenderInfo)
      (rad cs stepDt : R) (b : Ball) :
  rad <= IZR (cols ri) * cs - rad ->
  rad <= IZR (rows ri) * cs - rad ->
  rad <= vx (pos (subStep lvl ri rad cs stepDt b)) <= IZR (cols ri) * cs - rad
  /\ rad <= vy (pos (subStep lvl ri rad cs stepDt b)) <= IZR (rows ri) * cs - rad.
Proof.
  intros Hx Hy. unfold subStep, resolveCircleCollisions. simpl.
  split; apply clamp_between; assumption.
Qed.

(** X25.  After every frame the ball is inside the playfield.  With a
    layout in which the ball fits ([radius <= cols * cellSize - radius]
    and the same for the rows), after [stepPhysics] the centre is within
    [[radius, cols * cellSize - radius]] horizontally and
    [[radius, rows * cellSize - radius]] vertically, wherever it was
    before and whatever the time delta. *)
Theorem stepPhysics_in_bounds (now dt : R) (w : World) (ri : RenderInfo) :
  renderInfo w = Some ri ->
  let rad := radius (ball w) in
  let cs := cellSize ri in
  rad <= IZR (cols ri) * cs - rad ->
  rad <= IZR (rows ri) * cs - rad ->
  let p := pos (ball (stepPhysics now dt w)) in
  rad <= vx p <= IZR (cols ri) * cs - rad
  /\ rad <= vy p <= IZR (rows ri) * cs - rad.
Proof.
  intros Hri rad cs Hx Hy p.
  assert (Hint : pos (ball (stepPhysics now dt w))
                 = pos (integrate (currentLevel w) ri (sensorState w) dt (ball w))).
  { unfold stepPhysics. rewrite Hri. simpl.
    destruct (goalCell w); simpl; [| reflexivity].
    destruct (goalReached w); simpl; [reflexivity |].
    destruct (inGoalCell _ _ _); reflexivity. }
  unfold p. rewrite Hint. unfold integrate. fold rad cs.
  set (n := steps _ dt cs).
  destruct (iter_last Ball (subStep (currentLevel w) ri rad cs (dt / IZR n))
                      (Z.to_nat n) (mkBall (pos (ball w))
                                           (dampedVelocity (sensorState w) dt (vel (ball w)))
                                           rad)) as [b' Hb'].
  { pose proof (steps_positive (hypot (vx (dampedVelocity (sensorState w) dt (vel (ball w))))
                                      (vy (dampedVelocity (sensorState w) dt (vel (ball w)))))
                               dt cs). fold n in H. lia. }
  rewrite Hb'. apply subStep_in_bounds; assumption.
Qed.

Lemma stepPhysics_in_bounds_witness :
  let p := pos (ball (stepPhysics 0 0.016 completedWorld)) in
  3 <= vx p <= 1 * 8 - 3 /\ 3 <= vy p <= 2 * 8 - 3.
Proof.
  apply (stepPhysics_in_bounds 0 0.016 completedWorld wallBelowInfo);
    [reflexivity | simpl; lra | simpl; lra].
Defined.

(** ** The axis-swept step *)

Lemma moveX_shape (lvl : option Level) (ri : RenderInfo)
      (rad cs stepDt : R) (b : Ball) :
  exists x velX,
    AxisSwept.moveX lvl ri rad cs stepDt b
    = mkBall (mkVec (clamp x rad (IZR (cols ri) * cs - rad)) (vy (pos b)))
             (mkVec velX (vy (vel b))) (radius b)
    /\ (velX = vx (vel b) \/ velX = 0).
Proof.
  unfold AxisSwept.moveX.
  destruct (Rlt_dec 0 (vx (vel b))); [| destruct (Rlt_dec (vx (vel b)) 0)];
    try destruct (AxisSwept.wallInColumn _ _ _);
    eexists; eexists; (split; [reflexivity | auto]).
Qed.

Lemma moveY_shape (lvl : option Level) (ri : RenderInfo)
      (rad cs stepDt : R) (b : Ball) :
  exists y velY,
    AxisSwept.moveY lvl ri rad cs stepDt b
    = mkBall (mkVec (vx (pos b)) (clamp y rad (IZR (rows ri) * cs - rad)))
             (mkVec (vx (vel b)) velY) (radius b)
    /\ (velY = vy (vel b) \/ velY = 0).
Proof.
  unfold AxisSwept.moveY.
  destruct (Rlt_dec 0 (vy (vel b))); [| destruct (Rlt_dec (vy (vel b)) 0)];
    try destruct (AxisSwept.wallInRow _ _ _);
    eexists; eexists; (split; [reflexivity | auto]).
Qed.

Lemma swept_subStep_shape (lvl : option Level) (ri : RenderInfo)
      (rad cs stepDt : R) (b : Ball) :
  exists x y velX velY,
    AxisSwept.subStep lvl ri rad cs stepDt b
    = mkBall (mkVec (clamp x rad (IZR (cols ri) * cs - rad))
                    (clamp y rad (IZR (rows ri) * cs - rad)))
             (mkVec velX velY) (radius b)
    /\ (velX = vx (vel b) \/ velX = 0)
    /\ (velY = vy (vel b) \/ velY = 0).
Proof.
  unfold AxisSwept.subStep.
  destruct (moveX_shape lvl ri rad cs stepDt b) as (x & velX & Hx & HvX).
  rewrite Hx.
  destruct (moveY_shape lvl ri rad cs stepDt
              (mkBall (mkVec (clamp x rad (IZR (cols ri) * cs - rad)) (vy (pos b)))
                      (mkVec velX (vy (vel b))) (radius b)))
    as (y & velY & Hy & HvY).
  rewrite Hy. simpl in *. exists x, y, velX, velY. repeat split; assumption.
Qed.


(** X26.  The axis-swept step keeps the ball inside the playfield too.
    With a layout in which the ball fits, after [stepPhysics] of
    [render_game.js] the centre is within
    [[radius, cols * cellSize - radius]] and
    [[radius, rows * cellSize - radius]]. *)
Theorem axis_swept_in_bounds (dt : R) (w : AxisSwept.State) (ri : RenderInfo) :
  AxisSwept.renderInfo w = Some ri ->
  let rad := radius (AxisSwept.ball w) in
  let cs := cellSize ri in
  rad <= IZR (cols ri) * cs - rad ->
  rad <= IZR (rows ri) * cs - rad ->
  let p := pos (AxisSwept.ball (AxisSwept.stepPhysics dt w)) in
  rad <= vx p <= IZR (cols ri) * cs - rad
  /\ rad <= vy p <= IZR (rows ri) * cs - rad.
Proof.
  intros Hri rad cs Hx Hy p.
  assert (Hint : p = pos (AxisSwept.integrate (AxisSwept.currentLevel w) ri
                            (AxisSwept.sensorState w) (AxisSwept.keyState w) dt
                            (AxisSwept.ball w))).
  { unfold p, AxisSwept.stepPhysics. rewrite Hri.
    destruct (AxisSwept.goalCell w); simpl; [| reflexivity].
    destruct (AxisSwept.goalReached w); simpl; [reflexivity |].
    destruct (inGoalCell _ _ _); reflexivity. }
  rewrite Hint. unfold AxisSwept.integrate. fold rad cs.
  set (v := AxisSwept.dampedVelocity _ _ dt _).
  set (n := Legacy.steps v dt cs).
  destruct (iter_last Ball (AxisSwept.subStep (AxisSwept.currentLevel w) ri rad cs (dt / IZR n))
                      (Z.to_nat n) (mkBall (pos (AxisSwept.ball w)) v rad)) as [b' Hb'].
  { assert (1 <= n)%Z by (unfold n, Legacy.steps; apply Z.le_max_l). lia. }
  rewrite Hb'.
  destruct (swept_subStep_shape (AxisSwept.currentLevel w) ri rad cs (dt / IZR n) b')
    as (x & y & velX & velY & Hs & _ & _).
  rewrite Hs. simpl. split; apply clamp_between; assumption.
Qed.



Lemma axis_swept_in_bounds_witness :
  let w := AxisSwept.mkState wallBelow (Some wallBelowInfo) None false
                             (mkBall (mkVec 4 4) (mkVec 20 0) 3)
                             (mkSensor (mkVec 0 0) false false)
                             (mkKeys false true false false) None in
  let p := pos (AxisSwept.ball (AxisSwept.stepPhysics 0.016 w)) in
  3 <= vx p <= 1 * 8 - 3 /\ 3 <= vy p <= 2 * 8 - 3.
Proof.
  apply (axis_swept_in_bounds 0.016
           (AxisSwept.mkState wallBelow (Some wallBelowInfo) None false
                              (mkBall (mkVec 4 4) (mkVec 20 0) 3)
                              (mkSensor (mkVec 0 0) false false)
                              (mkKeys false true false false) None)
           wallBelowInfo); [reflexivity | simpl; lra | simpl; lra].
Defined.

(** ** The frame loop *)

Lemma frameDt_bounds (timestamp last : R) :
  0.001 <= frameDt timestamp last <= 0.032.
Proof.
  unfold frameDt. split; [apply Rmin_glb; [lra | apply Rmax_l] | apply Rmin_l].
Qed.

Lemma stepPhysics_completing_pauses (now dt : R) (w : World) :
  goalReached w = false -> goalReached (stepPhysics now dt w) = true ->
  animationPaused (stepPhysics now dt w) = true.
Proof.
  unfold stepPhysics. destruct (renderInfo w); [| congruence]. simpl.
  destruct (goalCell w); simpl; [| congruence].
  intro H0. rewrite H0. simpl.
  destruct (inGoalCell _ _ _); simpl; [reflexivity | congruence].
Qed.

(** X28.  One frame of the loop.  On a page that is not paused and has
    a level and a layout, [loop] runs [stepPhysics] once with a time
    delta between [0.001] and [0.032] seconds (the smallest one on the
    first frame), remembers the timestamp, and asks for the next frame
    unless the step has paused the game, which a completing step always
    does; on a paused page it only forgets the scheduled frame. *)
Theorem loop_frame (now timestamp : R) (nextId : Z) (p : Page) :
  let w := world p in
  let p' := loop now timestamp nextId p in
  (animationPaused w = true ->
   animationId (world p') = None
   /\ ball (world p') = ball w
   /\ timerState (world p') = timerState w
   /\ goalReached (world p') = goalReached w
   /\ lastFrameTime p' = lastFrameTime p)
  /\ (animationPaused w = false -> currentLevel w <> None -> renderInfo w <> None ->
      exists dt,
        0.001 <= dt <= 0.032
        /\ (lastFrameTime p = None -> dt = 0.001)
        /\ ball (world p') = ball (stepPhysics now dt w)
        /\ goalReached (world p') = goalReached (stepPhysics now dt w)
        /\ timerState (world p') = timerState (stepPhysics now dt w)
        /\ lastFrameTime p' = Some timestamp
        /\ (animationPaused (stepPhysics now dt w) = false ->
            animationId (world p') = Some nextId)
        /\ (goalReached w = false -> goalReached (world p') = true ->
            animationId (world p') = None /\ animationPaused (world p') = true)).
Proof.
  intros w p'. split.
  - intro Hp. unfold p', loop. fold w. rewrite Hp. simpl. repeat split.
  - intros Hp Hlv Hri. unfold p', loop. fold w. rewrite Hp.
    destruct (currentLevel w) as [lv |]; [| congruence].
    destruct (renderInfo w) as [ri |] eqn:Eri; [| congruence].
    set (last := match lastFrameTime p with Some t => t | None => timestamp end).
    exists (frameDt timestamp last).
    split; [apply frameDt_bounds |]. split.
    { intro Hnone. unfold last. rewrite Hnone. unfold frameDt.
      replace ((timestamp - timestamp) / 1000) with 0 by field.
      rewrite Rmax_left by lra. apply Rmin_right. lra. }
    pose proof (stepPhysics_completing_pauses now (frameDt timestamp last) w) as Hpause.
    destruct (animationPaused (stepPhysics now (frameDt timestamp last) w)) eqn:Ep; simpl.
    + split; [reflexivity |]. split; [reflexivity |]. split; [reflexivity |].
      split; [reflexivity |]. split; [intro Hf; discriminate |].
      intros _ _. split; reflexivity.
    + split; [reflexivity |]. split; [reflexivity |]. split; [reflexivity |].
      split; [reflexivity |]. split; [intros _; reflexivity |].
      intros Hg0 Hg1. specialize (Hpause Hg0 Hg1). discriminate.
Qed.

Lemma loop_frame_witness :
  animationId (world (loop 0 16 7 (mkPage completedWorld (Some 0) true))) = None.
Proof.
  apply (loop_frame 0 16 7 (mkPage completedWorld (Some 0) true)). reflexivity.
Defined.

Lemma ceil_le (x : R) (k : Z) : x <= IZR k -> (ceil x <= k)%Z.
Proof.
  intro H. unfold ceil.
  pose proof (floor_spec (- x)) as [_ H2].
  assert (Hlt : IZR (- k - 1) < IZR (floor (- x))).
  { rewrite minus_IZR, opp_IZR. simpl. lra. }
  apply lt_IZR in Hlt. lia.
Qed.

(** X29.  Bounded work per frame.  With the tilt acceleration within
    [-900] and [900] on both axes (as [handleOrientation] leaves it), a
    squared speed of at most [500000] before the frame, a cell size of
    at least [8] and the time delta of the loop, the squared speed after
    damping is again at most [500000] and the frame runs between one and
    seven sub-steps. *)
Theorem frame_substeps_bounded (s : SensorState) (v : Vec)
        (timestamp last cs : R) :
  -900 <= vx (accel s) <= 900 -> -900 <= vy (accel s) <= 900 ->
  speedSq v <= 500000 -> 8 <= cs ->
  let dt := frameDt timestamp last in
  let v' := dampedVelocity s dt v in
  speedSq v' <= 500000
  /\ (1 <= steps (hypot (vx v') (vy v')) dt cs <= 7)%Z.
Proof.
  intros Hax Hay Hv Hcs dt v'.
  pose proof (frameDt_bounds timestamp last) as Hdt. fold dt in Hdt.
  set (A := sqrt 1620000).
  assert (HA : 0 <= A) by apply sqrt_pos.
  assert (HAA : A * A = 1620000) by (apply sqrt_sqrt; lra).
  assert (HS : (A / friction) * (A / friction) = 500000).
  { unfold friction. set (a := A / 1.8).
    assert (Ha : A = 1.8 * a) by (unfold a; lra).
    rewrite Ha in HAA. lra. }
  assert (Hv' : speedSq v' <= 500000).
  { rewrite <- HS. apply dampedVelocity_speed.
    - lra.
    - exact HA.
    - rewrite HAA. unfold speedSq. nra.
    - rewrite HS. exact Hv. }
  split; [exact Hv' |]. split; [apply steps_positive |].
  unfold steps. apply Z.max_lub; [lia |]. apply ceil_le.
  set (speed := hypot (vx v') (vy v')).
  assert (Hsp0 : 0 <= speed) by apply sqrt_pos.
  assert (Hsq : speed * speed = speedSq v').
  { unfold speed, hypot, speedSq. apply sqrt_sqrt. nra. }
  assert (Hsp : speed <= 708) by nra.
  rewrite (Rmax_right 1 (cs * 0.45)) by lra.
  assert (Hnum : speed * dt <= 22.656) by nra.
  apply Rmult_le_reg_r with (cs * 0.45); [lra |].
  replace (speed * dt / (cs * 0.45) * (cs * 0.45)) with (speed * dt) by (field; lra).
  simpl. lra.
Qed.

Lemma frame_substeps_bounded_witness :
  (1 <= steps (hypot (vx (dampedVelocity (mkSensor (mkVec 900 0) true true)
                                         (frameDt 16 0) (mkVec 300 400)))
                     (vy (dampedVelocity (mkSensor (mkVec 900 0) true true)
                                         (frameDt 16 0) (mkVec 300 400))))
              (frameDt 16 0) 10 <= 7)%Z.
Proof.
  apply (frame_substeps_bounded (mkSensor (mkVec 900 0) true true) (mkVec 300 400) 16 0 10);
    simpl; try lra. unfold speedSq; simpl; lra.
Defined.

(** ** The start of a level *)

Lemma isWall_tileAt (g : Grid) (n : nat) (col row : Z) (ch : ascii) :
  rectangular g n -> tileAt g col row = Some ch ->
  (0 <= row < Z.of_nat (length g))%Z
  /\ (0 <= col < Z.of_nat n)%Z
  /\ isWall (Some (mkLevel (Some g))) col row = Ascii.eqb ch WALL.
Proof.
  intros Hrect Ht. unfold tileAt in Ht.
  destruct ((row <? 0) || (col <? 0))%Z eqn:Hneg; [discriminate |].
  pose proof Hneg as Hneg'.
  apply orb_false_iff in Hneg' as [Hr Hc]. apply Z.ltb_ge in Hr, Hc.
  destruct (nth_error g (Z.to_nat row)) as [rw |] eqn:Hrw; [| discriminate].
  assert (Hrlen : (Z.to_nat row < length g)%nat).
  { apply nth_error_Some. congruence. }
  assert (Hclen : (Z.to_nat col < length rw)%nat).
  { apply nth_error_Some. congruence. }
  pose proof (rectangular_row g n _ rw Hrect Hrw) as Hlen.
  assert (Hne : g <> []) by (intro E; subst g; simpl in Hrlen; lia).
  split; [lia |]. split; [lia |].
  unfold isWall. simpl. rewrite Hneg.
  rewrite (rectangular_first_row g n Hrect Hne).
  replace ((row >=? Z.of_nat (length g)) || (col >=? Z.of_nat n))%Z with false
    by (symmetry; apply orb_false_iff; split; lia).
  rewrite (nth_error_nth g (Z.to_nat row) [] Hrw). rewrite Ht. reflexivity.
Qed.

Lemma placeBallAtStart_keeps (w : World) :
  currentLevel (placeBallAtStart w) = currentLevel w
  /\ renderInfo (placeBallAtStart w) = renderInfo w
  /\ startCell (placeBallAtStart w) = startCell w
  /\ goalCell (placeBallAtStart w) = goalCell w
  /\ timerState (placeBallAtStart w) = timerState w.
Proof.
  unfold placeBallAtStart.
  destruct (renderInfo w) eqn:Hri; [| rewrite Hri; repeat split; reflexivity].
  destruct (startCell w) eqn:Hsc; [| rewrite Hri, Hsc; repeat split; reflexivity].
  simpl. rewrite Hri, Hsc. repeat split; reflexivity.
Qed.

Lemma rescaleBall_keeps (old : option R) (w : World) :
  currentLevel (rescaleBall old w) = currentLevel w
  /\ renderInfo (rescaleBall old w) = renderInfo w
  /\ startCell (rescaleBall old w) = startCell w
  /\ goalCell (rescaleBall old w) = goalCell w
  /\ timerState (rescaleBall old w) = timerState w.
Proof.
  unfold rescaleBall.
  destruct old as [o |]; [| repeat split; reflexivity].
  destruct (renderInfo w) eqn:Hri; [| rewrite Hri; repeat split; reflexivity].
  destruct (Req_dec_T o 0); [rewrite Hri; repeat split; reflexivity |].
  simpl. rewrite Hri. repeat split; reflexivity.
Qed.

Lemma drawGrid_start_state (vp : Viewport) (row0 : Row) (rest : Grid) (w : World) :
  hasCanvas vp = true ->
  rectangular (row0 :: rest) (length row0) ->
  let w' := drawGrid vp (Some (row0 :: rest)) w in
  currentLevel w' = currentLevel w
  /\ startCell w' = startCell w
  /\ goalCell w' = goalCell w
  /\ timerState w' = timerState w
  /\ exists cs,
      8 <= cs <= 1200
      /\ renderInfo w'
         = Some (mkRenderInfo (Z.of_nat (length row0))
                              (Z.of_nat (length (row0 :: rest))) cs).
Proof.
  intros Hcanvas Hrect w'.
  destruct (drawGrid_result vp row0 rest w Hcanvas Hrect) as (cs & Hcs & Hdraw).
  cbv zeta in Hdraw. unfold w'. rewrite Hdraw.
  set (w1 := set_renderInfo w (Some (mkRenderInfo (Z.of_nat (length row0))
                                       (Z.of_nat (length (row0 :: rest))) cs))).
  assert (Hp : forall w2,
             (w2 = placeBallAtStart w1 \/ exists o, w2 = rescaleBall o w1) ->
             currentLevel w2 = currentLevel w
             /\ startCell w2 = startCell w
             /\ goalCell w2 = goalCell w
             /\ timerState w2 = timerState w
             /\ exists cs0,
                 8 <= cs0 <= 1200
                 /\ renderInfo w2
                    = Some (mkRenderInfo (Z.of_nat (length row0))
                                         (Z.of_nat (length (row0 :: rest))) cs0)).
  { intros w2 [-> | [o ->]].
    - destruct (placeBallAtStart_keeps w1) as (K1 & K2 & K3 & K4 & K5).
      rewrite K1, K2, K3, K4, K5. repeat split; try reflexivity.
      exists cs. split; [exact Hcs | reflexivity].
    - destruct (rescaleBall_keeps o w1) as (K1 & K2 & K3 & K4 & K5).
      rewrite K1, K2, K3, K4, K5. repeat split; try reflexivity.
      exists cs. split; [exact Hcs | reflexivity]. }
  destruct (renderInfo w) as [ri0 |].
  - destruct (Req_dec_T (cellSize ri0) 0).
    + apply Hp. left. reflexivity.
    + apply Hp. right. eexists. reflexivity.
  - apply Hp. left. reflexivity.
Qed.

(** X30.  How a level starts.  For a level whose grid is rectangular
    and holds an ['S'], on a page with a
    canvas, [renderLevel] ends without error with: the level loaded, the
    start and goal cells those of [findSpecialCells], the timer reset,
    the goal flag clear, the loop scheduled and not paused, a layout with
    a cell size between [8] and [1200], and the ball at rest on the
    centre of the start cell, with [3 <= radius <= 0.45 * cellSize],
    inside the playfield box, in a tile that is not a wall. *)
Theorem renderLevel_initial_state (vp : Viewport) (nextId : Z) (lv : Level)
        (row0 : Row) (rest : Grid) (p : Page) (sc : Cell) :
  grid lv = Some (row0 :: rest) ->
  rectangular (row0 :: rest) (length row0) ->
  hasCanvas vp = true ->
  start (findSpecialCells (row0 :: rest)) = Some sc ->
  let p' := fst (renderLevel vp nextId (Some lv) p) in
  let w' := world p' in
  snd (renderLevel vp nextId (Some lv) p) = None
  /\ currentLevel w' = Some lv
  /\ startCell w' = Some sc
  /\ goalCell w' = goal (findSpecialCells (row0 :: rest))
  /\ timerState w' = timerState0
  /\ goalReached w' = false
  /\ animationPaused w' = false
  /\ animationId w' = Some nextId
  /\ lastFrameTime p' = None
  /\ exists ri,
      renderInfo w' = Some ri
      /\ 8 <= cellSize ri <= 1200
      /\ vel (ball w') = mkVec 0 0
      /\ pos (ball w') = mkVec ((IZR (cell_c sc) + 0.5) * cellSize ri)
                               ((IZR (cell_r sc) + 0.5) * cellSize ri)
      /\ 3 <= radius (ball w') <= 0.45 * cellSize ri
      /\ radius (ball w') <= vx (pos (ball w')) <= IZR (cols ri) * cellSize ri - radius (ball w')
      /\ radius (ball w') <= vy (pos (ball w')) <= IZR (rows ri) * cellSize ri - radius (ball w')
      /\ isWall (currentLevel w')
                (floor (vx (pos (ball w')) / cellSize ri))
                (floor (vy (pos (ball w')) / cellSize ri)) = false.
Proof.
  intros Hgrid Hrect Hcanvas Hstart p' w'.
  set (g := row0 :: rest) in *.
  set (w1 := set_level (world p) (Some lv) (resetTimer (timerState (world p)))
                       (start (findSpecialCells g)) (goal (findSpecialCells g))).
  set (w2 := drawGrid vp (Some g) w1).
  assert (Hrl : renderLevel vp nextId (Some lv) p
                = (startLoop nextId (mkPage (placeBallAtStart w2) (lastFrameTime p) true),
                   None)).
  { unfold renderLevel. rewrite Hgrid. reflexivity. }
  destruct (drawGrid_start_state vp row0 rest w1 Hcanvas Hrect)
    as (Klv & Ksc & Kgc & Kt & cs & Hcs & Hri).
  fold g in Klv, Ksc, Kgc, Kt, Hri. fold w2 in Klv, Ksc, Kgc, Kt, Hri.
  set (ri := mkRenderInfo (Z.of_nat (length row0)) (Z.of_nat (length g)) cs) in *.
  assert (Hsc2 : startCell w2 = Some sc) by (rewrite Ksc; exact Hstart).
  (* the start cell holds 'S' *)
  pose proof (loop_characterised "S" start start_body g (mkSpecials None None) eq_refl)
    as Hchar.
  fold (findSpecialCells g) in Hchar. rewrite Hstart in Hchar.
  destruct Hchar as [Hholds _]. unfold holds in Hholds.
  destruct (isWall_tileAt g (length row0) (cell_c sc) (cell_r sc) "S" Hrect Hholds)
    as (Hr & Hc & Hwall).
  assert (Hlv : lv = mkLevel (Some g)) by (destruct lv; simpl in Hgrid; congruence).
  assert (Hcs0 : 0 < cs) by lra.
  unfold w', p'. rewrite Hrl. simpl fst. simpl snd.
  unfold startLoop, placeBallAtStart. rewrite Hri, Hsc2. simpl.
  split; [reflexivity |]. split; [exact Klv |]. split; [exact Hsc2 |].
  split; [exact Kgc |]. split; [rewrite Kt; reflexivity |].
  split; [reflexivity |]. split; [reflexivity |]. split; [reflexivity |].
  split; [reflexivity |].
  exists ri. simpl.
  pose proof (radius_after_sync cs (ball w2) (proj1 Hcs)) as Hrad. simpl in Hrad.
  set (rad := Rmax 3 (Rmin (cs * 0.35) (cs * 0.45))) in *.
  assert (Hc1 : 0 <= IZR (cell_c sc) <= IZR (Z.of_nat (length row0)) - 1).
  { split; [apply IZR_le; lia |].
    replace (IZR (Z.of_nat (length row0)) - 1) with (IZR (Z.of_nat (length row0) - 1))
      by (rewrite minus_IZR; reflexivity).
    apply IZR_le. lia. }
  assert (Hr1 : 0 <= IZR (cell_r sc) <= IZR (Z.of_nat (length g)) - 1).
  { split; [apply IZR_le; lia |].
    replace (IZR (Z.of_nat (length g)) - 1) with (IZR (Z.of_nat (length g) - 1))
      by (rewrite minus_IZR; reflexivity).
    apply IZR_le. lia. }
  split; [exact Hri |]. split; [exact Hcs |]. split; [reflexivity |].
  split; [reflexivity |]. split; [exact Hrad |].
  assert (Hbox : forall k n : R, 0 <= k <= n - 1 ->
                   rad <= (k + 0.5) * cs <= n * cs - rad).
  { intros k n [Hk0 Hk1].
    assert (H1 : 0.5 * cs <= (k + 0.5) * cs)
      by (apply Rmult_le_compat_r; lra).
    assert (H2 : (k + 0.5) * cs <= (n - 0.5) * cs)
      by (apply Rmult_le_compat_r; lra).
    split; [lra |].
    replace (n * cs) with ((n - 0.5) * cs + 0.5 * cs) by ring. lra. }
  split; [apply Hbox; exact Hc1 |]. split; [apply Hbox; exact Hr1 |].
  rewrite !floor_of_centre by exact Hcs0.
  rewrite Klv. unfold w1. simpl currentLevel. rewrite Hlv.
  exact Hwall.
Qed.

Lemma renderLevel_initial_state_witness :
  snd (renderLevel (mkViewport 800 600 (Some 56) (Some 48) true) 1
                   (Some (mkLevel (Some sampleGrid)))
                   (mkPage completedWorld (Some 0) false)) = None.
Proof.
  apply (renderLevel_initial_state (mkViewport 800 600 (Some 56) (Some 48) true) 1
           (mkLevel (Some sampleGrid)) (list_ascii_of_string ".#")
           [list_ascii_of_string "S."] (mkPage completedWorld (Some 0) false)
           (mkCell 1 0)).
  - reflexivity.
  - repeat constructor.
  - reflexivity.
  - reflexivity.
Defined.

(** ** A completing frame, on a playfield of one tile *)

Lemma integrate_in_bounds (lvl : option Level) (ri : RenderInfo)
      (s : SensorState) (dt : R) (b : Ball) :
  radius b <= IZR (cols ri) * cellSize ri - radius b ->
  radius b <= IZR (rows ri) * cellSize ri - radius b ->
  radius b <= vx (pos (integrate lvl ri s dt b)) <= IZR (cols ri) * cellSize ri - radius b
  /\ radius b <= vy (pos (integrate lvl ri s dt b)) <= IZR (rows ri) * cellSize ri - radius b.
Proof.
  intros Hx Hy. unfold integrate.
  set (v := dampedVelocity s dt (vel b)).
  set (n := steps (hypot (vx v) (vy v)) dt (cellSize ri)).
  destruct (iter_last Ball (subStep lvl ri (radius b) (cellSize ri) (dt / IZR n))
                      (Z.to_nat n) (mkBall (pos b) v (radius b))) as [b' Hb'].
  { pose proof (steps_positive (hypot (vx v) (vy v)) dt (cellSize ri)) as H.
    fold n in H. lia. }
  rewrite Hb'. apply subStep_in_bounds; assumption.
Qed.

Lemma completion_reports_elapsed_witness :
  effects (stepPhysics 1600 0.016
             (mkWorld (Some (mkLevel (Some (rows_of ["G"%string]))))
                      (Some (mkRenderInfo 1 1 8)) None (Some (mkCell 0 0))
                      false (Some 5%Z) false (mkBall (mkVec 4 4) (mkVec 0 0) 3)
                      (mkSensor (mkVec 0 900) true true) (mkTimer 100 0 true true) 1 []))
  = ([] ++ [CancelAnimationFrame 5])
    ++ [SaveCompletionTime 1 (getElapsedMs 1600 (mkTimer 100 0 true true));
        ShowWinModal (getElapsedMs 1600 (mkTimer 100 0 true true))].
Proof.
  apply (completion_reports_elapsed 1600 0.016
           (mkWorld (Some (mkLevel (Some (rows_of ["G"%string]))))
                    (Some (mkRenderInfo 1 1 8)) None (Some (mkCell 0 0))
                    false (Some 5%Z) false (mkBall (mkVec 4 4) (mkVec 0 0) 3)
                    (mkSensor (mkVec 0 900) true true) (mkTimer 100 0 true true) 1 [])
           (mkRenderInfo 1 1 8) (mkCell 0 0)).
  - reflexivity.
  - reflexivity.
  - reflexivity.
  - cbn [currentLevel sensorState ball cellSize].
    destruct (integrate_in_bounds (Some (mkLevel (Some (rows_of ["G"%string]))))
                (mkRenderInfo 1 1 8) (mkSensor (mkVec 0 900) true true) 0.016
                (mkBall (mkVec 4 4) (mkVec 0 0) 3)) as [Hx Hy].
    + simpl. lra.
    + simpl. lra.
    + cbn [radius cols rows cellSize] in Hx, Hy.
      unfold inGoalCell.
      rewrite (floor_unique _ 0%Z), (floor_unique _ 0%Z); [reflexivity | lra | lra].
Defined.
